(** * The Zero-Trust secret vault driver (vault_driver.c)

    A shallow embedding of the character-device driver: the module's static
    variables become one record, every file operation becomes a function
    from that record to the record after the call together with what the
    call hands back (return value, user buffer, file position).  The kernel
    services the driver calls (user-memory copies, the timer, jiffies) are
    modelled in [Kernel], on an LP64 little-endian machine. *)

From Stdlib Require Import ZArith List Lia Bool.
From Stdlib Require Import Strings.Byte.
Import ListNotations.
Local Open Scope Z_scope.

(** Length of a buffer as a C integer. *)
Definition len {A : Type} (l : list A) : Z := Z.of_nat (length l).

(** ** Kernel services used by the driver *)
Module Kernel.

(** *** Integer types: conversion to a type is reduction into its range. *)
Definition BITS_PER_LONG : Z := 64.

Definition unsigned_wrap (bits x : Z) : Z := x mod 2 ^ bits.

Definition signed_wrap (bits x : Z) : Z :=
  (x + 2 ^ (bits - 1)) mod 2 ^ bits - 2 ^ (bits - 1).

Definition size_t : Z -> Z := unsigned_wrap BITS_PER_LONG.
Definition ulong : Z -> Z := unsigned_wrap BITS_PER_LONG.
Definition ssize_t : Z -> Z := signed_wrap BITS_PER_LONG.
Definition long : Z -> Z := signed_wrap BITS_PER_LONG.
Definition loff_t : Z -> Z := signed_wrap 64.
Definition int : Z -> Z := signed_wrap 32.

Definition INT_MIN : Z := - 2 ^ 31.
Definition INT_MAX : Z := 2 ^ 31 - 1.
Definition LLONG_MAX : Z := 2 ^ 63 - 1.

(** *** errno values *)
Definition EACCES : Z := 13.
Definition EFAULT : Z := 14.
Definition EINVAL : Z := 22.
Definition EINTR : Z := 4.
Definition ERESTARTSYS : Z := 512.

(** *** ioctl command encoding (asm-generic/ioctl.h) *)
Definition _IOC_WRITE : Z := 1.
Definition _IOC (dir type nr size : Z) : Z :=
  Z.lor (Z.lor (Z.lor (Z.shiftl dir 30) (Z.shiftl type 8)) (Z.shiftl nr 0))
        (Z.shiftl size 16).
Definition _IOW (type nr size : Z) : Z := _IOC _IOC_WRITE type nr size.

(** *** User memory

    A user pointer is modelled by the bytes that are accessible from it:
    an access past the end of the list faults. *)
Definition ubuf := list byte.

(** [copy_to_user dst src n]: the number of bytes that could not be
    copied (0 on success) and the user buffer afterwards. *)
Definition copy_to_user (dst : ubuf) (src : list byte) (n : Z) : Z * ubuf :=
  if n <=? len dst
  then (0, firstn (Z.to_nat n) src ++ skipn (Z.to_nat n) dst)
  else (n - len dst, firstn (length dst) src).

(** [copy_from_user to from n]: the number of bytes that could not be
    copied and the kernel buffer afterwards; the part of the request
    that could not be read is zero-filled. *)
Definition copy_from_user (to : list byte) (from : ubuf) (n : Z)
  : Z * list byte :=
  if n <=? len from
  then (0, firstn (Z.to_nat n) from ++ skipn (Z.to_nat n) to)
  else (n - len from,
        from ++ repeat x00 (Z.to_nat (n - len from)) ++ skipn (Z.to_nat n) to).

(** An [int] object in memory: four bytes, least significant first. *)
Definition Z_of_byte (b : byte) : Z := Z.of_N (Byte.to_N b).

Definition byte_of_Z (z : Z) : byte :=
  match Byte.of_N (Z.to_N (z mod 256)) with
  | Some b => b
  | None => x00
  end.

Fixpoint le_decode (bs : list byte) : Z :=
  match bs with
  | [] => 0
  | b :: bs' => Z_of_byte b + 256 * le_decode bs'
  end.

Fixpoint le_encode (n : nat) (z : Z) : list byte :=
  match n with
  | O => []
  | S n' => byte_of_Z z :: le_encode n' (z / 256)
  end.

Definition int_of_bytes (bs : list byte) : Z := int (le_decode bs).
Definition bytes_of_int (z : Z) : list byte := le_encode 4 z.

(** *** The mutex: [mutex_lock_interruptible] returns 0 once the mutex is
    held and -EINTR when a signal ends the wait. *)
Inductive lock_outcome : Type := Acquired | Interrupted.

Definition mutex_lock_interruptible (o : lock_outcome) : Z :=
  match o with
  | Acquired => 0
  | Interrupted => - EINTR
  end.

(** *** Timers

    A [timer_list] is either idle or pending with one expiry time. *)
Record timer_list : Type := mk_timer { expires : Z; pending : bool }.

Definition timer_setup : timer_list := mk_timer 0 false.

(** [mod_timer] on an idle timer starts it, on a pending timer moves its
    expiry. *)
Definition mod_timer (t : timer_list) (e : Z) : timer_list := mk_timer e true.

Definition timer_delete_sync (t : timer_list) : timer_list :=
  mk_timer (expires t) false.

(** [detach_timer]: what the timer core does right before it calls the
    timer's function. *)
Definition detach_timer (t : timer_list) : timer_list :=
  mk_timer (expires t) false.

(** [time_after_eq a b]: a is at or after b, jiffies wrap included. *)
Definition time_after_eq (a b : Z) : bool := 0 <=? long (a - b).

Definition MSEC_PER_SEC : Z := 1000.

(** [msecs_to_jiffies] for a tick rate [HZ] that divides 1000. *)
Definition msecs_to_jiffies (HZ m : Z) : Z :=
  (m + (MSEC_PER_SEC / HZ) - 1) / (MSEC_PER_SEC / HZ).

End Kernel.
Import Kernel.

(** ** The driver *)

Definition MAX_SECRET : Z := 4096.

Definition VAULT_MAGIC : Z := 118. (* 'v' *)
Definition IOCTL_UNLOCK_VAULT : Z := _IOW VAULT_MAGIC 1 4. (* sizeof(int) = 4 *)
Definition VAULT_PIN : Z := 1337.

(** The module's static variables. *)
Record vault : Type := mk_vault {
  secret_buf : list byte;      (* char secret_buf[MAX_SECRET] *)
  secret_len : Z;              (* size_t *)
  is_unlocked : Z;             (* int: 0 = locked, 1 = unlocked *)
  lock_timer : timer_list
}.

Definition set_secret_buf (b : list byte) (v : vault) : vault :=
  mk_vault b (secret_len v) (is_unlocked v) (lock_timer v).
Definition set_secret_len (n : Z) (v : vault) : vault :=
  mk_vault (secret_buf v) n (is_unlocked v) (lock_timer v).
Definition set_is_unlocked (u : Z) (v : vault) : vault :=
  mk_vault (secret_buf v) (secret_len v) u (lock_timer v).
Definition set_lock_timer (t : timer_list) (v : vault) : vault :=
  mk_vault (secret_buf v) (secret_len v) (is_unlocked v) t.

(** The variables as the loader leaves them: zero-filled. *)
Definition vault_statics : vault :=
  mk_vault (repeat x00 (Z.to_nat MAX_SECRET)) 0 0 (mk_timer 0 false).

(** What a read hands back: return value, user buffer, file position. *)
Record read_out : Type := mk_read_out {
  r_ret : Z; r_buf : ubuf; r_pos : Z
}.

(** What a write hands back: return value and file position. *)
Record write_out : Type := mk_write_out { w_ret : Z; w_pos : Z }.

(** The timer's function: takes the mutex, clears the flag. *)
Definition auto_lock_callback (v : vault) : vault :=
  set_is_unlocked 0 v.

Definition my_open : Z := 0.
Definition my_close : Z := 0.

Definition my_read (o : lock_outcome) (buf : ubuf) (count ppos : Z) (v : vault)
  : vault * read_out :=
  if negb (mutex_lock_interruptible o =? 0)
  then (v, mk_read_out (- ERESTARTSYS) buf ppos)
  else if is_unlocked v =? 0
  then (v, mk_read_out (- EACCES) buf ppos)
  else if secret_len v <=? size_t ppos
  then (v, mk_read_out 0 buf ppos)
  else
    let to_copy := Z.min count (size_t (secret_len v - size_t ppos)) in
    let (ret, buf') :=
      copy_to_user buf (skipn (Z.to_nat ppos) (secret_buf v)) to_copy in
    if negb (ret =? 0)
    then (v, mk_read_out (- EFAULT) buf' ppos)
    else (v, mk_read_out (ssize_t to_copy) buf' (loff_t (ppos + to_copy))).

Definition my_write (o : lock_outcome) (buf : ubuf) (count ppos : Z) (v : vault)
  : vault * write_out :=
  if negb (mutex_lock_interruptible o =? 0)
  then (v, mk_write_out (- ERESTARTSYS) ppos)
  else if is_unlocked v =? 0
  then (v, mk_write_out (- EACCES) ppos)
  else
    let to_copy := Z.min count (size_t MAX_SECRET) in
    let (ret, sbuf) := copy_from_user (secret_buf v) buf to_copy in
    if negb (ret =? 0)
    then (set_secret_buf sbuf v, mk_write_out (- EFAULT) ppos)
    else (set_secret_len to_copy (set_secret_buf sbuf v),
          mk_write_out (ssize_t to_copy) 0).

Section TickRate.

(** The kernel's tick rate, a build-time constant of the kernel the
    module is compiled against. *)
Variable HZ : Z.

Definition my_ioctl (jiffies cmd : Z) (arg : ubuf) (v : vault) : vault * Z :=
  if cmd =? IOCTL_UNLOCK_VAULT then
    let (ret, pin_bytes) := copy_from_user (repeat x00 4) arg 4 in
    if negb (ret =? 0) then (v, - EFAULT)
    else
      let user_pin := int_of_bytes (firstn 4 pin_bytes) in
      if user_pin =? VAULT_PIN
      then (set_lock_timer
              (mod_timer (lock_timer v)
                         (ulong (jiffies + msecs_to_jiffies HZ 30000)))
              (set_is_unlocked 1 v),
            0)
      else (v, - EACCES)
  else (v, - EINVAL).

End TickRate.

(** [secret_init], on the path where the device registration succeeds. *)
Definition secret_init (v : vault) : vault * Z :=
  (set_lock_timer timer_setup v, 0).

(** [secret_exit]: the timer is stopped; what follows only unregisters the
    device and touches none of the variables above. *)
Definition secret_exit (v : vault) : vault :=
  set_lock_timer (timer_delete_sync (lock_timer v)) v.

(** An expiry served without delay: at tick [jiffies] the timer core finds
    the pending timer due, detaches it and calls [auto_lock_callback], and
    the callback gets the mutex before any other call does.  The timer core
    detaches the timer outside the mutex, so other calls can come in
    between; the two steps on their own are [expire_timer] and
    [run_callback] below. *)
Definition run_timers (jiffies : Z) (v : vault) : vault :=
  if pending (lock_timer v) && time_after_eq jiffies (expires (lock_timer v))
  then auto_lock_callback (set_lock_timer (detach_timer (lock_timer v)) v)
  else v.

(** ** The store as its callers see it *)

Definition locked (v : vault) : bool := is_unlocked v =? 0.

(** The pending auto-lock expiry, if there is one. *)
Definition unlock_deadline (v : vault) : option Z :=
  if pending (lock_timer v) then Some (expires (lock_timer v)) else None.

(** The logically valid prefix of the buffer. *)
Definition secret (v : vault) : list byte :=
  firstn (Z.to_nat (secret_len v)) (secret_buf v).

(** The bytes a read returned: as many of the user buffer as the return
    value counts, none for an error. *)
Definition read_data (r : read_out) : list byte :=
  firstn (Z.to_nat (r_ret r)) (r_buf r).

Definition vault_wf (v : vault) : Prop :=
  len (secret_buf v) = MAX_SECRET /\ 0 <= secret_len v <= MAX_SECRET.

(** ** Histories: the calls the driver can receive, in the order in which
    they take the mutex, every timer expiry being served without delay *)

Inductive op : Type :=
| OpRead (o : lock_outcome) (buf : ubuf) (count ppos : Z)
| OpWrite (o : lock_outcome) (buf : ubuf) (count ppos : Z)
| OpIoctl (jiffies cmd : Z) (arg : ubuf)
| OpTimer (jiffies : Z)
| OpExit.

Definition is_exit (a : op) : bool :=
  match a with OpExit => true | _ => false end.

(** The calls that can change the lock state: timer ticks and ioctls. *)
Definition is_lock_op (a : op) : bool :=
  match a with OpTimer _ | OpIoctl _ _ _ => true | _ => false end.

(** The arguments are values of their C types: [count] is a size_t. *)
Definition op_typed (a : op) : bool :=
  match a with
  | OpRead _ _ count _ | OpWrite _ _ count _ => (0 <=? count) && (count <? 2 ^ 64)
  | _ => true
  end.

Section History.

Variable HZ : Z.

Definition exec (v : vault) (a : op) : vault :=
  match a with
  | OpRead o buf count ppos => fst (my_read o buf count ppos v)
  | OpWrite o buf count ppos => fst (my_write o buf count ppos v)
  | OpIoctl jiffies cmd arg => fst (my_ioctl HZ jiffies cmd arg v)
  | OpTimer jiffies => run_timers jiffies v
  | OpExit => secret_exit v
  end.

Definition boot : vault := fst (secret_init vault_statics).

Definition run_from (v : vault) (ops : list op) : vault := fold_left exec ops v.

Definition run (ops : list op) : vault := run_from boot ops.

End History.

(** ** The timer in two steps

    The timer core detaches an expired timer and calls its function without
    holding [secret_mutex]; [auto_lock_callback] then waits for the mutex
    like every other call.  The driver's state is therefore the static
    variables together with the number of callbacks that have been called
    and have not taken the mutex yet. *)

Record driver : Type := mk_driver {
  store : vault;
  callbacks : nat
}.

Inductive event : Type :=
| EvRead (o : lock_outcome) (buf : ubuf) (count ppos : Z)
| EvWrite (o : lock_outcome) (buf : ubuf) (count ppos : Z)
| EvIoctl (jiffies cmd : Z) (arg : ubuf)
| EvExpire (jiffies : Z)   (* the timer core looks at the timer at this tick *)
| EvCallback               (* a called [auto_lock_callback] takes the mutex *)
| EvExit.

(** The timer core at tick [jiffies]: a pending timer whose expiry has been
    reached is detached and its function is called. *)
Definition expire_timer (jiffies : Z) (s : driver) : driver :=
  if pending (lock_timer (store s))
     && time_after_eq jiffies (expires (lock_timer (store s)))
  then mk_driver (set_lock_timer (detach_timer (lock_timer (store s))) (store s))
                 (S (callbacks s))
  else s.

(** One of the called callbacks takes the mutex and runs. *)
Definition run_callback (s : driver) : driver :=
  match callbacks s with
  | O => s
  | S c => mk_driver (auto_lock_callback (store s)) c
  end.

(** [secret_exit]: [timer_delete_sync] returns once the timer is idle and
    every called callback has finished. *)
Definition exit_driver (s : driver) : driver :=
  mk_driver
    (secret_exit
       (match callbacks s with
        | O => store s
        | S _ => auto_lock_callback (store s)
        end))
    0.

Definition ev_is_exit (e : event) : bool :=
  match e with EvExit => true | _ => false end.

(** Between an unlock at tick [t] and [d] ticks later: reads, writes, the
    timer core looking at the timer less than [d] ticks after [t], and
    callbacks taking the mutex. *)
Definition in_window (t d : Z) (e : event) : bool :=
  match e with
  | EvRead _ _ _ _ | EvWrite _ _ _ _ | EvCallback => true
  | EvExpire j => ulong (j - t) <? d
  | EvIoctl _ _ _ | EvExit => false
  end.

Section Play.

Variable HZ : Z.

Definition fire (s : driver) (e : event) : driver :=
  match e with
  | EvRead o buf count ppos =>
      mk_driver (fst (my_read o buf count ppos (store s))) (callbacks s)
  | EvWrite o buf count ppos =>
      mk_driver (fst (my_write o buf count ppos (store s))) (callbacks s)
  | EvIoctl jiffies cmd arg =>
      mk_driver (fst (my_ioctl HZ jiffies cmd arg (store s))) (callbacks s)
  | EvExpire jiffies => expire_timer jiffies s
  | EvCallback => run_callback s
  | EvExit => exit_driver s
  end.

Definition play_from (s : driver) (evs : list event) : driver :=
  fold_left fire evs s.

Definition boot_driver : driver := mk_driver boot 0.

Definition play (evs : list event) : driver := play_from boot_driver evs.

(** The event is an ioctl that unlocks. *)
Definition unlock_served (s : driver) (e : event) : bool :=
  match e with
  | EvIoctl jiffies cmd arg => snd (my_ioctl HZ jiffies cmd arg (store s)) =? 0
  | _ => false
  end.

(** No unlock is served while a called callback is still waiting for the
    mutex. *)
Fixpoint calm (s : driver) (evs : list event) : bool :=
  match evs with
  | [] => true
  | e :: evs' =>
      (negb (unlock_served s e) || (callbacks s =? 0)%nat)
      && calm (fire s e) evs'
  end.

End Play.

(** A call of a history with expiries served without delay, as events:
    the expiry is the timer core's step followed at once by the callback. *)
Definition refine (a : op) : list event :=
  match a with
  | OpRead o buf count ppos => [EvRead o buf count ppos]
  | OpWrite o buf count ppos => [EvWrite o buf count ppos]
  | OpIoctl jiffies cmd arg => [EvIoctl jiffies cmd arg]
  | OpTimer jiffies => [EvExpire jiffies; EvCallback]
  | OpExit => [EvExit]
  end.

(** ** Invariants of the lock flag and the timer *)

(** The lock flag and the timer move together. *)
Definition lock_in_step (v : vault) : Prop :=
  (is_unlocked v = 0 /\ pending (lock_timer v) = false) \/
  (is_unlocked v = 1 /\ pending (lock_timer v) = true).

(** An unlocked store has its re-locking on the way: the timer is pending
    or a called callback has yet to run. *)
Definition relock_on_the_way (s : driver) : Prop :=
  is_unlocked (store s) = 0 \/ pending (lock_timer (store s)) = true \/
  (0 < callbacks s)%nat.

(** With no unlock served under a waiting callback: either no callback
    waits and a pending timer means unlocked, or one callback waits and the
    timer is idle. *)
Definition calm_shape (s : driver) : Prop :=
  (callbacks s = 0%nat /\
   (pending (lock_timer (store s)) = true -> is_unlocked (store s) = 1)) \/
  (callbacks s = 1%nat /\ pending (lock_timer (store s)) = false).

(** The same without module exit: flag and timer in step, or one callback
    waiting on an unlocked store with an idle timer. *)
Definition calm_shape_loaded (s : driver) : Prop :=
  (callbacks s = 0%nat /\ lock_in_step (store s)) \/
  (callbacks s = 1%nat /\ is_unlocked (store s) = 1 /\
   pending (lock_timer (store s)) = false).

(** ** Sample states *)

Definition hello : list byte := [x68; x65; x6c; x6c; x6f].

(** Booted, then unlocked with the PIN at tick 1000 of a 250 Hz kernel. *)
Definition vault_unlocked : vault :=
  run 250 [OpIoctl 1000 IOCTL_UNLOCK_VAULT (bytes_of_int VAULT_PIN)].

(** The same, after "hello" has been written. *)
Definition vault_hello : vault :=
  run 250 [OpIoctl 1000 IOCTL_UNLOCK_VAULT (bytes_of_int VAULT_PIN);
           OpWrite Acquired hello 5 0].

(** The unlock call with credential [c] at time [jiffies]. *)
Definition unlock (HZ jiffies c : Z) (v : vault) : vault * Z :=
  my_ioctl HZ jiffies IOCTL_UNLOCK_VAULT (bytes_of_int c) v.

Definition LOCK_DURATION (HZ : Z) : Z := msecs_to_jiffies HZ 30000.

(** The calls that move data: reads and writes. *)
Definition is_data_op (a : op) : bool :=
  match a with OpRead _ _ _ _ | OpWrite _ _ _ _ => true | _ => false end.

(** ** Device registration in [secret_init] and [secret_exit]

    The four registration calls of [secret_init] are kernel services; what
    each one returns is an input, and the run of the function is the list of
    registrations made and undone, in program order. *)

Inductive resource : Type := ChrdevRegion | Cdev | Class | Device.

Inductive kevent : Type :=
| Acquire (r : resource)
| Release (r : resource).

(** What the registration calls return: an int for the first two, a pointer
    (as an address) for the last two. *)
Record probe : Type := mk_probe {
  alloc_chrdev_region : Z;
  cdev_add : Z;
  class_create : Z;
  device_create : Z
}.

Definition probe_typed (k : probe) : Prop :=
  INT_MIN <= alloc_chrdev_region k <= INT_MAX /\
  INT_MIN <= cdev_add k <= INT_MAX /\
  0 <= class_create k < 2 ^ 64 /\
  0 <= device_create k < 2 ^ 64.

(** Error pointers (linux/err.h): the top MAX_ERRNO addresses. *)
Definition MAX_ERRNO : Z := 4095.
Definition IS_ERR (ptr : Z) : bool := ulong (- MAX_ERRNO) <=? ptr.
Definition PTR_ERR (ptr : Z) : Z := long ptr.

(** The cleanup labels of [secret_init], each falling through to the next. *)
Definition err_chrdev : list kevent := [Release ChrdevRegion].
Definition err_cdev : list kevent := Release Cdev :: err_chrdev.
Definition err_class : list kevent := Release Class :: err_cdev.

Definition secret_init_devices (k : probe) : Z * list kevent :=
  let ret := alloc_chrdev_region k in
  if ret <? 0 then (ret, [])
  else
    let ret := cdev_add k in
    if ret <? 0 then (ret, [Acquire ChrdevRegion] ++ err_chrdev)
    else if IS_ERR (class_create k)
    then (int (PTR_ERR (class_create k)),
          [Acquire ChrdevRegion; Acquire Cdev] ++ err_cdev)
    else if IS_ERR (device_create k)
    then (int (PTR_ERR (device_create k)),
          [Acquire ChrdevRegion; Acquire Cdev; Acquire Class] ++ err_class)
    else (0, [Acquire ChrdevRegion; Acquire Cdev; Acquire Class; Acquire Device]).

Definition secret_exit_devices : list kevent :=
  [Release Device; Release Class; Release Cdev; Release ChrdevRegion].

Definition resource_eqb (a b : resource) : bool :=
  match a, b with
  | ChrdevRegion, ChrdevRegion | Cdev, Cdev | Class, Class | Device, Device => true
  | _, _ => false
  end.

(** The registrations still held after a run of events, most recent first;
    [None] when something is released that is not the most recent
    registration still held. *)
Fixpoint held_after (held : list resource) (evs : list kevent)
  : option (list resource) :=
  match evs with
  | [] => Some held
  | Acquire r :: evs' => held_after (r :: held) evs'
  | Release r :: evs' =>
      match held with
      | r' :: rest => if resource_eqb r r' then held_after rest evs' else None
      | [] => None
      end
  end.

(** Unlocked at tick 1000 of a 250 Hz kernel; at tick 8500 the timer core
    has detached the timer and called the callback, which has not taken the
    mutex yet. *)
Definition driver_expired : driver :=
  play 250 [EvIoctl 1000 IOCTL_UNLOCK_VAULT (bytes_of_int VAULT_PIN);
            EvExpire 8500].

(** A load of the module on which the class registration fails with
    -ENOMEM (12). *)
Definition probe_class_fails : probe := mk_probe 0 0 (2 ^ 64 - 12) 0.

(** * Properties *)

(** ** Integer conversions *)

Lemma size_t_small (x : Z) : 0 <= x < 2 ^ 64 -> size_t x = x.
Proof. intros H. unfold size_t, unsigned_wrap, BITS_PER_LONG. now apply Z.mod_small. Qed.

Lemma ulong_small (x : Z) : 0 <= x < 2 ^ 64 -> ulong x = x.
Proof. exact (size_t_small x). Qed.

Lemma signed_wrap_small (bits x : Z) :
  0 < bits -> - 2 ^ (bits - 1) <= x < 2 ^ (bits - 1) -> signed_wrap bits x = x.
Proof.
  intros Hb Hx. unfold signed_wrap.
  assert (E : 2 ^ bits = 2 * 2 ^ (bits - 1)).
  { replace bits with (Z.succ (bits - 1)) at 1 by lia. apply Z.pow_succ_r. lia. }
  rewrite Z.mod_small; lia.
Qed.

Lemma ssize_t_small (x : Z) : - 2 ^ 63 <= x < 2 ^ 63 -> ssize_t x = x.
Proof. intros H. apply signed_wrap_small; [reflexivity | exact H]. Qed.

Lemma loff_t_small (x : Z) : - 2 ^ 63 <= x < 2 ^ 63 -> loff_t x = x.
Proof. exact (ssize_t_small x). Qed.

Lemma int_small (x : Z) : INT_MIN <= x <= INT_MAX -> int x = x.
Proof.
  unfold INT_MIN, INT_MAX. intros H.
  apply signed_wrap_small; [reflexivity | simpl; lia].
Qed.

(** ** An [int] in user memory *)

Lemma Z_of_byte_of_Z (z : Z) : Z_of_byte (byte_of_Z z) = z mod 256.
Proof.
  unfold Z_of_byte, byte_of_Z.
  assert (Hr : 0 <= z mod 256 < 256) by (apply Z.mod_pos_bound; lia).
  destruct (Byte.of_N (Z.to_N (z mod 256))) as [b|] eqn:E.
  - apply Byte.to_of_N in E. rewrite E. apply Z2N.id. lia.
  - apply Byte.of_N_None_iff in E. lia.
Qed.

Lemma le_decode_encode (n : nat) :
  forall z, le_decode (le_encode n z) = z mod 256 ^ Z.of_nat n.
Proof.
  induction n as [|n IH]; intros z.
  - simpl. now rewrite Z.mod_1_r.
  - cbn [le_encode le_decode]. rewrite Z_of_byte_of_Z, IH.
    rewrite Nat2Z.inj_succ, Z.pow_succ_r by lia.
    rewrite Z.rem_mul_r; [reflexivity | lia | ].
    apply Z.pow_pos_nonneg; lia.
Qed.

Lemma length_bytes_of_int (c : Z) : length (bytes_of_int c) = 4%nat.
Proof. reflexivity. Qed.

Lemma int_of_bytes_of_int (c : Z) :
  INT_MIN <= c <= INT_MAX -> int_of_bytes (bytes_of_int c) = c.
Proof.
  unfold INT_MIN, INT_MAX. intros H.
  unfold int_of_bytes, bytes_of_int. rewrite le_decode_encode.
  unfold int, signed_wrap.
  change (256 ^ Z.of_nat 4) with (2 ^ 32).
  change (2 ^ (32 - 1)) with (2 ^ 31).
  rewrite Zplus_mod_idemp_l. rewrite Z.mod_small; lia.
Qed.

(** ** User copies *)

Lemma firstn_all_app {A : Type} (l r : list A) (n : nat) :
  n = length l -> firstn n (l ++ r) = l.
Proof.
  intros ->. rewrite firstn_app, Nat.sub_diag, firstn_all. simpl.
  apply app_nil_r.
Qed.

Lemma copy_from_user_ok (to : list byte) (from : ubuf) (n : Z) :
  n <= len from ->
  copy_from_user to from n
  = (0, firstn (Z.to_nat n) from ++ skipn (Z.to_nat n) to).
Proof.
  intros H. unfold copy_from_user.
  destruct (Z.leb_spec n (len from)); [reflexivity | lia].
Qed.

Lemma copy_to_user_ok (dst : ubuf) (src : list byte) (n : Z) :
  n <= len dst ->
  copy_to_user dst src n
  = (0, firstn (Z.to_nat n) src ++ skipn (Z.to_nat n) dst).
Proof.
  intros H. unfold copy_to_user.
  destruct (Z.leb_spec n (len dst)); [reflexivity | lia].
Qed.

Lemma copy_pin (arg : ubuf) :
  length arg = 4%nat ->
  copy_from_user (repeat x00 4) arg 4 = (0, arg).
Proof.
  intros H. rewrite copy_from_user_ok by (unfold len; lia).
  change (Z.to_nat 4) with 4%nat.
  rewrite <- H, firstn_all. simpl.
  do 4 (destruct arg as [|? arg]; try discriminate). simpl.
  destruct arg; [reflexivity | discriminate].
Qed.

(** ** The unlock call *)

Lemma unlock_unfold (HZ jiffies c : Z) (v : vault) :
  INT_MIN <= c <= INT_MAX ->
  unlock HZ jiffies c v
  = if c =? VAULT_PIN
    then (set_lock_timer
            (mod_timer (lock_timer v) (ulong (jiffies + LOCK_DURATION HZ)))
            (set_is_unlocked 1 v), 0)
    else (v, - EACCES).
Proof.
  intros Hc. unfold unlock, my_ioctl, LOCK_DURATION.
  rewrite Z.eqb_refl, copy_pin by apply length_bytes_of_int.
  change (negb (0 =? 0)) with false. cbv iota.
  rewrite <- (length_bytes_of_int c) at 1.
  rewrite firstn_all, int_of_bytes_of_int by exact Hc.
  reflexivity.
Qed.

Lemma VAULT_PIN_is_int : INT_MIN <= VAULT_PIN <= INT_MAX.
Proof. unfold INT_MIN, INT_MAX, VAULT_PIN. lia. Qed.

Lemma unlock_match (HZ jiffies : Z) (v : vault) :
  unlock HZ jiffies VAULT_PIN v
  = (set_lock_timer
       (mod_timer (lock_timer v) (ulong (jiffies + LOCK_DURATION HZ)))
       (set_is_unlocked 1 v), 0).
Proof. rewrite unlock_unfold by apply VAULT_PIN_is_int. reflexivity. Qed.

(** 30000 ms are 30 * HZ ticks when HZ divides 1000. *)
Lemma LOCK_DURATION_ticks (HZ : Z) :
  0 < HZ -> 1000 mod HZ = 0 -> LOCK_DURATION HZ = 30 * HZ.
Proof.
  intros Hpos Hdiv. unfold LOCK_DURATION, msecs_to_jiffies, MSEC_PER_SEC.
  assert (Hk : 1000 = HZ * (1000 / HZ)).
  { rewrite (Z.div_mod 1000 HZ) at 1 by lia. lia. }
  set (k := 1000 / HZ) in *.
  assert (0 < k) by nia.
  replace (30000 + k - 1) with (30 * HZ * k + (k - 1)) by nia.
  rewrite Z.div_add_l by lia. rewrite Z.div_small; lia.
Qed.

(** C3: an unlock call whose credential is not the PIN returns -EACCES (the
    invalid-credential outcome of this call) and leaves the whole state as it
    was: buffer, length, lock flag and timer (so also the secret, the lock
    state and the pending deadline). *)
Theorem unlock_mismatch_state_unchanged (HZ jiffies c : Z) (v : vault) :
  INT_MIN <= c <= INT_MAX ->
  c <> VAULT_PIN ->
  snd (unlock HZ jiffies c v) = - EACCES /\
  fst (unlock HZ jiffies c v) = v /\
  secret (fst (unlock HZ jiffies c v)) = secret v /\
  secret_len (fst (unlock HZ jiffies c v)) = secret_len v /\
  locked (fst (unlock HZ jiffies c v)) = locked v /\
  unlock_deadline (fst (unlock HZ jiffies c v)) = unlock_deadline v /\
  lock_timer (fst (unlock HZ jiffies c v)) = lock_timer v.
Proof.
  intros Hrange Hneq. rewrite unlock_unfold by exact Hrange.
  destruct (Z.eqb_spec c VAULT_PIN) as [E|_]; [contradiction|].
  simpl. repeat split.
Qed.

(** ** The timer *)

Lemma run_timers_idle (j : Z) (v : vault) :
  pending (lock_timer v) = false -> run_timers j v = v.
Proof. intros H. unfold run_timers. now rewrite H. Qed.

Lemma run_timers_early (j : Z) (v : vault) :
  time_after_eq j (expires (lock_timer v)) = false -> run_timers j v = v.
Proof. intros H. unfold run_timers. rewrite H. now rewrite andb_false_r. Qed.

Lemma run_timers_fire (j : Z) (v : vault) :
  pending (lock_timer v) = true ->
  time_after_eq j (expires (lock_timer v)) = true ->
  run_timers j v
  = auto_lock_callback (set_lock_timer (detach_timer (lock_timer v)) v).
Proof. intros Hp Ht. unfold run_timers. now rewrite Hp, Ht. Qed.

(** C4: a successful unlock at time [t] returns 0, leaves the store unlocked
    and the one timer pending with expiry t + 30 s (30 * HZ ticks, in
    jiffies arithmetic), whatever the timer's state was before; the timer
    does not fire before that expiry, and when it fires it locks the store
    and nothing further is pending. *)
Theorem unlock_arms_single_deadline (HZ t : Z) (v : vault) :
  0 < HZ ->
  1000 mod HZ = 0 ->
  let v' := fst (unlock HZ t VAULT_PIN v) in
  let d := ulong (t + 30 * HZ) in
  snd (unlock HZ t VAULT_PIN v) = 0 /\
  locked v' = false /\
  LOCK_DURATION HZ = 30 * HZ /\
  unlock_deadline v' = Some d /\
  (0 <= t -> t + 30 * HZ < 2 ^ 64 -> d = t + 30 * HZ) /\
  (forall j, time_after_eq j d = false -> run_timers j v' = v') /\
  (forall j, time_after_eq j d = true ->
     locked (run_timers j v') = true /\
     unlock_deadline (run_timers j v') = None /\
     forall j', run_timers j' (run_timers j v') = run_timers j v').
Proof.
  intros Hpos Hdiv v' d. subst v' d.
  rewrite unlock_match, (LOCK_DURATION_ticks HZ Hpos Hdiv). cbn [fst snd].
  split; [reflexivity|]. split; [reflexivity|]. split; [reflexivity|].
  split; [reflexivity|]. split; [|split].
  - intros H0 Hlt. apply ulong_small. lia.
  - intros j Hj. now apply run_timers_early.
  - intros j Hj. rewrite run_timers_fire by (try reflexivity; assumption).
    split; [reflexivity|]. split; [reflexivity|].
    intros j'. now apply run_timers_idle.
Qed.

(** ** Reads and writes, path by path *)

Lemma locked_true_iff (v : vault) : locked v = true <-> is_unlocked v = 0.
Proof. unfold locked. apply Z.eqb_eq. Qed.

Lemma locked_false_iff (v : vault) : locked v = false <-> is_unlocked v <> 0.
Proof. unfold locked. apply Z.eqb_neq. Qed.

Lemma len_nonneg {A : Type} (l : list A) : 0 <= len l.
Proof. unfold len. lia. Qed.

Lemma my_read_locked (buf : ubuf) (count ppos : Z) (v : vault) :
  locked v = true ->
  my_read Acquired buf count ppos v = (v, mk_read_out (- EACCES) buf ppos).
Proof.
  unfold locked. intros H. unfold my_read. cbn [mutex_lock_interruptible].
  change (negb (0 =? 0)) with false. cbv iota. now rewrite H.
Qed.

Lemma my_write_locked (buf : ubuf) (count ppos : Z) (v : vault) :
  locked v = true ->
  my_write Acquired buf count ppos v = (v, mk_write_out (- EACCES) ppos).
Proof.
  unfold locked. intros H. unfold my_write. cbn [mutex_lock_interruptible].
  change (negb (0 =? 0)) with false. cbv iota. now rewrite H.
Qed.

Lemma my_read_eof (buf : ubuf) (count ppos : Z) (v : vault) :
  locked v = false ->
  secret_len v <= size_t ppos ->
  my_read Acquired buf count ppos v = (v, mk_read_out 0 buf ppos).
Proof.
  unfold locked. intros Hu Hle. unfold my_read.
  cbn [mutex_lock_interruptible]. change (negb (0 =? 0)) with false. cbv iota.
  rewrite Hu.
  destruct (Z.leb_spec (secret_len v) (size_t ppos)); [reflexivity | lia].
Qed.

(** The copying path, for any position the end-of-data test lets through. *)
Lemma my_read_copy (buf : ubuf) (count ppos : Z) (v : vault) :
  locked v = false ->
  secret_len v <= MAX_SECRET ->
  size_t ppos < secret_len v ->
  0 <= count ->
  Z.min count (secret_len v - size_t ppos) <= len buf ->
  let n := Z.min count (secret_len v - size_t ppos) in
  my_read Acquired buf count ppos v
  = (v, mk_read_out n
          (firstn (Z.to_nat n) (skipn (Z.to_nat ppos) (secret_buf v))
             ++ skipn (Z.to_nat n) buf)
          (loff_t (ppos + n))).
Proof.
  intros Hu Hcap Hlt Hc Hroom n. unfold locked, MAX_SECRET in *.
  assert (Hs : 0 <= size_t ppos)
    by (unfold size_t, unsigned_wrap; apply Z.mod_pos_bound; reflexivity).
  unfold my_read. cbn [mutex_lock_interruptible].
  change (negb (0 =? 0)) with false. cbv iota. rewrite Hu.
  destruct (Z.leb_spec (secret_len v) (size_t ppos)); [lia|].
  rewrite (size_t_small (secret_len v - size_t ppos)) by lia.
  fold n. rewrite copy_to_user_ok by lia.
  change (negb (0 =? 0)) with false. cbv iota.
  rewrite ssize_t_small by lia. reflexivity.
Qed.

Lemma my_write_unlocked (X : list byte) (ppos : Z) (v : vault) :
  locked v = false ->
  let n := Z.min (len X) MAX_SECRET in
  my_write Acquired X (len X) ppos v
  = (set_secret_len n
       (set_secret_buf
          (firstn (Z.to_nat n) X ++ skipn (Z.to_nat n) (secret_buf v)) v),
     mk_write_out n 0).
Proof.
  intros Hu n. unfold locked in Hu. pose proof (len_nonneg X) as Hx.
  unfold my_write. cbn [mutex_lock_interruptible].
  change (negb (0 =? 0)) with false. cbv iota. rewrite Hu.
  change (size_t MAX_SECRET) with MAX_SECRET. fold n.
  rewrite copy_from_user_ok by lia.
  change (negb (0 =? 0)) with false. cbv iota.
  rewrite ssize_t_small by (unfold MAX_SECRET in n; lia). reflexivity.
Qed.

Lemma firstn_len {A : Type} (l : list A) : firstn (Z.to_nat (len l)) l = l.
Proof. unfold len. rewrite Nat2Z.id. apply firstn_all. Qed.

Lemma len_firstn {A : Type} (n : Z) (l : list A) :
  0 <= n <= len l -> len (firstn (Z.to_nat n) l) = n.
Proof. unfold len. intros H. rewrite length_firstn. lia. Qed.

(** ** The access gate *)

(** C1: a read or write that has taken the mutex, on a buffer the caller
    really owns ([count] bytes of room for a read, the bytes [X] for a
    write), succeeds exactly when the store is unlocked; when it is locked
    the call returns -EACCES, hands back no data, and neither the user
    buffer nor the store has been touched. *)
Theorem access_iff_unlocked
  (v : vault) (rbuf : ubuf) (count rpos : Z) (X : list byte) (wpos : Z) :
  vault_wf v ->
  0 <= count <= len rbuf ->
  let rd := my_read Acquired rbuf count rpos v in
  let wr := my_write Acquired X (len X) wpos v in
  (0 <= r_ret (snd rd) <-> locked v = false) /\
  (0 <= w_ret (snd wr) <-> locked v = false) /\
  (locked v = true ->
     r_ret (snd rd) = - EACCES /\ read_data (snd rd) = [] /\
     r_buf (snd rd) = rbuf /\ fst rd = v /\
     w_ret (snd wr) = - EACCES /\ fst wr = v).
Proof.
  intros [Hlen [Hlo Hhi]] Hc rd wr. subst rd wr.
  destruct (locked v) eqn:E.
  - rewrite my_read_locked, my_write_locked by exact E. cbn [fst snd r_ret w_ret r_buf].
    unfold EACCES.
    split; [split; [lia | discriminate]|].
    split; [split; [lia | discriminate]|].
    intros _. repeat split.
  - rewrite my_write_unlocked by exact E. cbn [fst snd w_ret].
    pose proof (len_nonneg X) as Hx.
    assert (Hw : 0 <= Z.min (len X) MAX_SECRET) by (unfold MAX_SECRET; lia).
    destruct (Z.le_gt_cases (secret_len v) (size_t rpos)) as [Heof|Hin].
    + rewrite my_read_eof by assumption. cbn [snd r_ret].
      split; [split; [reflexivity | intros _; lia]|].
      split; [split; [reflexivity | intros _; exact Hw]|]. discriminate.
    + assert (Hs : 0 <= size_t rpos)
        by (unfold size_t, unsigned_wrap; apply Z.mod_pos_bound; reflexivity).
      rewrite my_read_copy by (try assumption; lia). cbn [snd r_ret].
      split; [split; [reflexivity | intros _; lia]|].
      split; [split; [reflexivity | intros _; exact Hw]|]. discriminate.
Qed.

(** ** What a write stores and what a read returns *)

(** C2: while unlocked, writing [X] of at most MAX_SECRET bytes reports
    len(X) bytes written and leaves the file position at 0, and a read of
    len(X) bytes from there, right after, returns exactly [X]. *)
Theorem write_read_roundtrip
  (X : list byte) (rbuf : ubuf) (wpos : Z) (v : vault) :
  len X <= MAX_SECRET ->
  locked v = false ->
  len X <= len rbuf ->
  let wr := my_write Acquired X (len X) wpos v in
  let rd := my_read Acquired rbuf (len X) (w_pos (snd wr)) (fst wr) in
  w_ret (snd wr) = len X /\
  w_pos (snd wr) = 0 /\
  locked (fst wr) = false /\
  secret (fst wr) = X /\
  r_ret (snd rd) = len X /\
  read_data (snd rd) = X.
Proof.
  intros Hcap Hu Hroom wr rd. subst rd wr.
  pose proof (len_nonneg X) as Hx.
  rewrite my_write_unlocked by exact Hu.
  rewrite Z.min_l by exact Hcap. cbn [fst snd w_ret w_pos].
  rewrite firstn_len.
  split; [reflexivity|]. split; [reflexivity|]. split; [exact Hu|].
  split.
  { unfold secret. cbn [secret_len secret_buf set_secret_len set_secret_buf].
    apply firstn_all_app. unfold len. now rewrite Nat2Z.id. }
  set (v1 := set_secret_len (len X) _).
  assert (Hu1 : locked v1 = false) by exact Hu.
  destruct (Z.eq_dec (len X) 0) as [Hz|Hnz].
  - rewrite my_read_eof; [| exact Hu1 | now subst v1; rewrite Hz].
    cbn [snd r_ret]. unfold read_data. cbn [r_ret r_buf].
    split; [now rewrite Hz|]. simpl.
    destruct X; [reflexivity | discriminate].
  - rewrite my_read_copy;
      [| exact Hu1 | exact Hcap | subst v1; cbn; lia | lia | subst v1; cbn; lia].
    change (size_t 0) with 0. subst v1.
    cbn [snd r_ret secret_len secret_buf set_secret_len set_secret_buf].
    rewrite Z.sub_0_r, Z.min_id.
    split; [reflexivity|]. unfold read_data. cbn [r_ret r_buf].
    change (Z.to_nat 0) with 0%nat. rewrite skipn_O.
    assert (E : firstn (Z.to_nat (len X))
                  (X ++ skipn (Z.to_nat (len X)) (secret_buf v)) = X)
      by (apply firstn_all_app; unfold len; now rewrite Nat2Z.id).
    rewrite E. apply firstn_all_app. unfold len. now rewrite Nat2Z.id.
Qed.

(** C5: while unlocked, writing [X] of more than MAX_SECRET bytes does not
    fail: it returns MAX_SECRET, fewer than len(X), and the secret is then
    the first MAX_SECRET bytes of [X], with secret_len = MAX_SECRET. *)
Theorem write_truncates (X : list byte) (wpos : Z) (v : vault) :
  MAX_SECRET < len X ->
  locked v = false ->
  let wr := my_write Acquired X (len X) wpos v in
  w_ret (snd wr) = MAX_SECRET /\
  w_ret (snd wr) < len X /\
  secret_len (fst wr) = MAX_SECRET /\
  secret (fst wr) = firstn (Z.to_nat MAX_SECRET) X /\
  len (secret (fst wr)) = MAX_SECRET.
Proof.
  intros Hbig Hu wr. subst wr.
  rewrite my_write_unlocked by exact Hu.
  rewrite Z.min_r by lia. cbn [fst snd w_ret].
  assert (Hl : length (firstn (Z.to_nat MAX_SECRET) X) = Z.to_nat MAX_SECRET).
  { rewrite length_firstn. unfold len in Hbig. lia. }
  assert (Hs : secret
                 (set_secret_len MAX_SECRET
                    (set_secret_buf
                       (firstn (Z.to_nat MAX_SECRET) X
                          ++ skipn (Z.to_nat MAX_SECRET) (secret_buf v)) v))
               = firstn (Z.to_nat MAX_SECRET) X).
  { unfold secret. cbn [secret_len secret_buf set_secret_len set_secret_buf].
    apply firstn_all_app. now rewrite Hl. }
  split; [reflexivity|]. split; [exact Hbig|]. split; [reflexivity|].
  split; [exact Hs|]. rewrite Hs. unfold len. rewrite Hl.
  reflexivity.
Qed.

Lemma my_write_stores (X : list byte) (wpos : Z) (v : vault) :
  len X <= MAX_SECRET ->
  locked v = false ->
  secret (fst (my_write Acquired X (len X) wpos v)) = X /\
  secret_len (fst (my_write Acquired X (len X) wpos v)) = len X.
Proof.
  intros Hcap Hu. rewrite my_write_unlocked by exact Hu.
  rewrite Z.min_l by exact Hcap. unfold secret.
  cbn [fst secret_len secret_buf set_secret_len set_secret_buf].
  rewrite firstn_len. split; [|reflexivity].
  apply firstn_all_app. unfold len. now rewrite Nat2Z.id.
Qed.

Lemma read_whole_secret (rbuf : ubuf) (v : vault) :
  locked v = false ->
  0 <= secret_len v <= MAX_SECRET ->
  len (secret v) = secret_len v ->
  secret_len v <= len rbuf ->
  r_ret (snd (my_read Acquired rbuf (secret_len v) 0 v)) = secret_len v /\
  read_data (snd (my_read Acquired rbuf (secret_len v) 0 v)) = secret v.
Proof.
  intros Hu [Hlo Hhi] Hsec Hroom.
  destruct (Z.eq_dec (secret_len v) 0) as [Hz|Hnz].
  - rewrite my_read_eof; [| exact Hu | rewrite Hz; reflexivity].
    unfold read_data, secret. cbn [snd r_ret r_buf]. rewrite Hz.
    split; reflexivity.
  - rewrite my_read_copy;
      [| exact Hu | exact Hhi | change (size_t 0) with 0; lia | lia
       | change (size_t 0) with 0; lia].
    change (size_t 0) with 0. rewrite Z.sub_0_r, Z.min_id.
    unfold read_data. cbn [snd r_ret r_buf].
    change (Z.to_nat 0) with 0%nat. rewrite skipn_O. fold (secret v).
    split; [reflexivity|].
    rewrite firstn_all_app; [reflexivity|].
    unfold len in Hsec. lia.
Qed.

(** C7: an unlocked read at [offset] returns 0 and no data when
    offset >= secret_len, and otherwise returns exactly
    min(count, secret_len - offset) bytes: the bytes of the secret from
    position [offset] on. *)
Theorem read_window (buf : ubuf) (count offset : Z) (v : vault) :
  vault_wf v ->
  locked v = false ->
  0 <= offset <= LLONG_MAX ->
  0 <= count <= len buf ->
  let rd := snd (my_read Acquired buf count offset v) in
  (secret_len v <= offset ->
     r_ret rd = 0 /\ read_data rd = [] /\ r_buf rd = buf) /\
  (offset < secret_len v ->
     r_ret rd = Z.min count (secret_len v - offset) /\
     len (read_data rd) = Z.min count (secret_len v - offset) /\
     read_data rd
     = firstn (Z.to_nat (Z.min count (secret_len v - offset)))
         (skipn (Z.to_nat offset) (secret v))).
Proof.
  intros [Hlen [Hlo Hhi]] Hu Hoff Hc rd. subst rd.
  assert (Hs : size_t offset = offset)
    by (apply size_t_small; unfold LLONG_MAX in Hoff; lia).
  split.
  - intros Hge. rewrite my_read_eof by (try assumption; lia).
    repeat split.
  - intros Hlt. rewrite my_read_copy by (try assumption; lia).
    rewrite Hs. set (n := Z.min count (secret_len v - offset)).
    unfold read_data. cbn [snd r_ret r_buf].
    assert (Hn : 0 <= n <= secret_len v - offset) by (subst n; lia).
    assert (Hl : length (firstn (Z.to_nat n)
                           (skipn (Z.to_nat offset) (secret_buf v)))
                 = Z.to_nat n).
    { rewrite length_firstn, length_skipn.
      unfold len, MAX_SECRET in *. lia. }
    rewrite firstn_all_app by (now rewrite Hl).
    split; [reflexivity|]. split; [unfold len; rewrite Hl; lia|].
    unfold secret. rewrite skipn_firstn_comm, firstn_firstn.
    f_equal. lia.
Qed.

(** ** Frame properties *)

(** C10: neither a timer expiry nor any ioctl call touches the buffer or
    its length; so a secret written while unlocked survives any sequence of
    timer ticks and ioctl calls, and is read back whole after the next
    successful unlock. *)
Theorem lock_transitions_keep_secret (HZ : Z) :
  (forall v, secret_buf (auto_lock_callback v) = secret_buf v /\
             secret_len (auto_lock_callback v) = secret_len v) /\
  (forall j v, secret_buf (run_timers j v) = secret_buf v /\
               secret_len (run_timers j v) = secret_len v) /\
  (forall j cmd arg v,
     secret_buf (fst (my_ioctl HZ j cmd arg v)) = secret_buf v /\
     secret_len (fst (my_ioctl HZ j cmd arg v)) = secret_len v) /\
  (forall (X : list byte) (rbuf : ubuf) (wpos j : Z) (ops : list op) (v : vault),
     len X <= MAX_SECRET ->
     locked v = false ->
     len X <= len rbuf ->
     forallb is_lock_op ops = true ->
     let v1 := fst (my_write Acquired X (len X) wpos v) in
     let v2 := run_from HZ v1 ops in
     let v3 := fst (unlock HZ j VAULT_PIN v2) in
     secret v2 = X /\ secret v3 = X /\ locked v3 = false /\
     r_ret (snd (my_read Acquired rbuf (len X) 0 v3)) = len X /\
     read_data (snd (my_read Acquired rbuf (len X) 0 v3)) = X).
Proof.
  assert (Hcb : forall v, secret_buf (auto_lock_callback v) = secret_buf v /\
                          secret_len (auto_lock_callback v) = secret_len v)
    by (intros v; split; reflexivity).
  assert (Htm : forall j v, secret_buf (run_timers j v) = secret_buf v /\
                            secret_len (run_timers j v) = secret_len v).
  { intros j v. unfold run_timers.
    destruct (pending (lock_timer v) && time_after_eq j (expires (lock_timer v)));
      split; reflexivity. }
  assert (Hio : forall j cmd arg v,
             secret_buf (fst (my_ioctl HZ j cmd arg v)) = secret_buf v /\
             secret_len (fst (my_ioctl HZ j cmd arg v)) = secret_len v).
  { intros j cmd arg v. unfold my_ioctl.
    destruct (cmd =? IOCTL_UNLOCK_VAULT); [|split; reflexivity].
    destruct (copy_from_user (repeat x00 4) arg 4) as [ret pin].
    destruct (negb (ret =? 0)); [split; reflexivity|].
    destruct (int_of_bytes (firstn 4 pin) =? VAULT_PIN); split; reflexivity. }
  split; [exact Hcb|]. split; [exact Htm|]. split; [exact Hio|].
  intros X rbuf wpos j ops v Hcap Hu Hroom Hops v1 v2 v3.
  assert (Hrun : forall ops u, forallb is_lock_op ops = true ->
             secret_buf (run_from HZ u ops) = secret_buf u /\
             secret_len (run_from HZ u ops) = secret_len u).
  { clear. intros ops. induction ops as [|a ops IH]; intros u Hall.
    - split; reflexivity.
    - simpl in Hall. apply andb_prop in Hall. destruct Hall as [Ha Hall].
      unfold run_from in *. cbn [fold_left].
      destruct (IH (exec HZ u a) Hall) as [-> ->].
      destruct a; try discriminate; cbn [exec].
      + unfold my_ioctl.
        destruct (cmd =? IOCTL_UNLOCK_VAULT); [|split; reflexivity].
        destruct (copy_from_user (repeat x00 4) arg 4) as [ret pin].
        destruct (negb (ret =? 0)); [split; reflexivity|].
        destruct (int_of_bytes (firstn 4 pin) =? VAULT_PIN); split; reflexivity.
      + unfold run_timers.
        destruct (pending (lock_timer u) && time_after_eq jiffies (expires (lock_timer u)));
          split; reflexivity. }
  destruct (my_write_stores X wpos v Hcap Hu) as [Hs1 Hl1].
  fold v1 in Hs1, Hl1.
  destruct (Hrun ops v1 Hops) as [Hb2 Hl2]. fold v2 in Hb2, Hl2.
  assert (Hs2 : secret v2 = X) by (unfold secret; now rewrite Hb2, Hl2).
  assert (Hb3 : secret_buf v3 = secret_buf v2)
    by (subst v3; now rewrite unlock_match).
  assert (Hl3 : secret_len v3 = len X)
    by (subst v3; rewrite unlock_match; cbn [fst]; cbn; congruence).
  assert (Hs3 : secret v3 = X).
  { unfold secret in *. rewrite Hb3, Hl3, Hb2, <- Hl1. exact Hs1. }
  assert (Hu3 : locked v3 = false) by (subst v3; now rewrite unlock_match).
  split; [exact Hs2|]. split; [exact Hs3|]. split; [exact Hu3|].
  pose proof (len_nonneg X) as Hx.
  assert (Hrd : r_ret (snd (my_read Acquired rbuf (secret_len v3) 0 v3))
                = secret_len v3 /\
                read_data (snd (my_read Acquired rbuf (secret_len v3) 0 v3))
                = secret v3).
  { apply read_whole_secret; [exact Hu3 | lia | | lia].
    rewrite Hs3. symmetry. exact Hl3. }
  rewrite Hl3, Hs3 in Hrd. exact Hrd.
Qed.

Lemma my_read_interrupted (buf : ubuf) (count ppos : Z) (v : vault) :
  my_read Interrupted buf count ppos v
  = (v, mk_read_out (- ERESTARTSYS) buf ppos).
Proof. reflexivity. Qed.

Lemma my_read_fault (buf : ubuf) (count ppos : Z) (v : vault) :
  locked v = false ->
  secret_len v <= MAX_SECRET ->
  size_t ppos < secret_len v ->
  len buf < Z.min count (secret_len v - size_t ppos) ->
  my_read Acquired buf count ppos v
  = (v, mk_read_out (- EFAULT)
          (firstn (length buf) (skipn (Z.to_nat ppos) (secret_buf v))) ppos).
Proof.
  intros Hu Hcap Hlt Hc. unfold locked, MAX_SECRET in *.
  assert (Hs : 0 <= size_t ppos)
    by (unfold size_t, unsigned_wrap; apply Z.mod_pos_bound; reflexivity).
  unfold my_read. cbn [mutex_lock_interruptible].
  change (negb (0 =? 0)) with false. cbv iota. rewrite Hu.
  destruct (Z.leb_spec (secret_len v) (size_t ppos)); [lia|].
  rewrite (size_t_small (secret_len v - size_t ppos)) by lia.
  unfold copy_to_user.
  destruct (Z.leb_spec (Z.min count (secret_len v - size_t ppos)) (len buf));
    [lia|].
  destruct (Z.eqb_spec (Z.min count (secret_len v - size_t ppos) - len buf) 0);
    [lia | reflexivity].
Qed.

Lemma my_read_state (o : lock_outcome) (buf : ubuf) (count ppos : Z) (v : vault) :
  fst (my_read o buf count ppos v) = v.
Proof.
  unfold my_read.
  destruct (negb (mutex_lock_interruptible o =? 0)); [reflexivity|].
  destruct (is_unlocked v =? 0); [reflexivity|].
  destruct (secret_len v <=? size_t ppos); [reflexivity|].
  destruct (copy_to_user _ _ _) as [ret buf'].
  destruct (negb (ret =? 0)); reflexivity.
Qed.

(** C8, as the driver has it: a read changes nothing in the store (secret,
    length, lock flag, timer), whatever its outcome; of the file position it
    leaves the value alone when it is denied, interrupted, faults or is at
    end of data, and advances it by the number of bytes returned when it
    succeeds; reading again from the same position gives the same result. *)
Theorem read_moves_only_cursor
  (o : lock_outcome) (buf : ubuf) (count ppos : Z) (v : vault) :
  vault_wf v ->
  0 <= ppos <= LLONG_MAX ->
  0 <= count ->
  let rd := my_read o buf count ppos v in
  fst rd = v /\
  secret (fst rd) = secret v /\
  secret_len (fst rd) = secret_len v /\
  locked (fst rd) = locked v /\
  unlock_deadline (fst rd) = unlock_deadline v /\
  (r_ret (snd rd) <= 0 -> r_pos (snd rd) = ppos) /\
  (0 < r_ret (snd rd) -> r_pos (snd rd) = ppos + r_ret (snd rd)) /\
  my_read o buf count ppos (fst rd) = rd.
Proof.
  intros [Hlen [Hlo Hhi]] Hp Hc rd. subst rd.
  rewrite my_read_state.
  do 5 (split; [reflexivity|]).
  assert (Hcur :
    (r_ret (snd (my_read o buf count ppos v)) <= 0 ->
     r_pos (snd (my_read o buf count ppos v)) = ppos) /\
    (0 < r_ret (snd (my_read o buf count ppos v)) ->
     r_pos (snd (my_read o buf count ppos v))
     = ppos + r_ret (snd (my_read o buf count ppos v)))).
  { assert (Hs : size_t ppos = ppos)
      by (apply size_t_small; unfold LLONG_MAX in Hp; lia).
    destruct o.
    - destruct (locked v) eqn:Hu.
      + rewrite my_read_locked by exact Hu. cbn. split; [reflexivity | lia].
      + destruct (Z.le_gt_cases (secret_len v) ppos) as [Heof|Hin].
        * rewrite my_read_eof by (try assumption; lia). cbn.
          split; [reflexivity | lia].
        * destruct (Z.le_gt_cases
                      (Z.min count (secret_len v - size_t ppos)) (len buf))
            as [Hok|Hbad].
          -- rewrite Hs in Hok.
             rewrite my_read_copy by (try assumption; lia).
             rewrite Hs. cbn [snd r_ret r_pos].
             rewrite loff_t_small by (unfold MAX_SECRET in Hhi; lia).
             split; [intros Hz | reflexivity].
             replace (Z.min count (secret_len v - ppos)) with 0 by lia. lia.
          -- rewrite my_read_fault by (try assumption; lia). cbn.
             split; [reflexivity | lia].
    - rewrite my_read_interrupted. cbn. split; [reflexivity | lia]. }
  destruct Hcur as [H1 H2].
  split; [exact H1|]. split; [exact H2|].
  destruct (my_read o buf count ppos v); reflexivity.
Qed.

(** ** Histories *)

(** Invariant rule: what every admitted call preserves holds at the end of
    every history of admitted calls. *)
Lemma run_from_invariant (HZ : Z) (P : vault -> Prop) (Q : op -> bool) :
  (forall v a, Q a = true -> P v -> P (exec HZ v a)) ->
  forall ops v, forallb Q ops = true -> P v -> P (run_from HZ v ops).
Proof.
  intros Hstep ops. induction ops as [|a ops IH]; intros v Hall Hv.
  - exact Hv.
  - simpl in Hall. apply andb_prop in Hall. destruct Hall as [Ha Hall].
    unfold run_from. cbn [fold_left]. apply IH; [exact Hall|].
    now apply Hstep.
Qed.

Lemma my_write_lock_state (o : lock_outcome) (buf : ubuf) (count ppos : Z) (v : vault) :
  is_unlocked (fst (my_write o buf count ppos v)) = is_unlocked v /\
  lock_timer (fst (my_write o buf count ppos v)) = lock_timer v.
Proof.
  unfold my_write.
  destruct (negb (mutex_lock_interruptible o =? 0)); [split; reflexivity|].
  destruct (is_unlocked v =? 0); [split; reflexivity|].
  destruct (copy_from_user _ _ _) as [ret sbuf].
  destruct (negb (ret =? 0)); split; reflexivity.
Qed.

Lemma my_ioctl_cases (HZ jiffies cmd : Z) (arg : ubuf) (v : vault) :
  fst (my_ioctl HZ jiffies cmd arg v) = v \/
  fst (my_ioctl HZ jiffies cmd arg v)
  = set_lock_timer
      (mod_timer (lock_timer v) (ulong (jiffies + msecs_to_jiffies HZ 30000)))
      (set_is_unlocked 1 v).
Proof.
  unfold my_ioctl.
  destruct (cmd =? IOCTL_UNLOCK_VAULT); [|now left].
  destruct (copy_from_user (repeat x00 4) arg 4) as [ret pin].
  destruct (negb (ret =? 0)); [now left|].
  destruct (int_of_bytes (firstn 4 pin) =? VAULT_PIN); [now right | now left].
Qed.

Lemma run_timers_cases (j : Z) (v : vault) :
  run_timers j v = v \/
  (pending (lock_timer v) = true /\
   run_timers j v
   = auto_lock_callback (set_lock_timer (detach_timer (lock_timer v)) v)).
Proof.
  unfold run_timers. destruct (pending (lock_timer v)); [|now left].
  destruct (time_after_eq j (expires (lock_timer v))); [right | left]; auto.
Qed.

Lemma exec_vault_wf (HZ : Z) (v : vault) (a : op) :
  op_typed a = true -> vault_wf v -> vault_wf (exec HZ v a).
Proof.
  intros Ha Hv.
  destruct a as [o buf count ppos|o buf count ppos|j cmd arg|j|]; cbn [exec].
  - now rewrite my_read_state.
  - cbn [op_typed] in Ha. apply andb_prop in Ha. destruct Ha as [H0 _].
    apply Z.leb_le in H0. destruct Hv as [Hlen [Hlo Hhi]].
    unfold vault_wf, my_write.
    destruct (negb (mutex_lock_interruptible o =? 0)); [now repeat split|].
    destruct (is_unlocked v =? 0); [now repeat split|].
    change (size_t MAX_SECRET) with MAX_SECRET.
    set (n := Z.min count MAX_SECRET).
    assert (Hn : 0 <= n <= MAX_SECRET) by (subst n; unfold MAX_SECRET; lia).
    unfold copy_from_user. destruct (Z.leb_spec n (len buf)) as [Hok|Hbad].
    + change (negb (0 =? 0)) with false. cbv iota.
      cbn [fst secret_buf secret_len set_secret_buf set_secret_len].
      split; [|exact Hn].
      unfold len in *. rewrite length_app, length_firstn, length_skipn. lia.
    + destruct (Z.eqb_spec (n - len buf) 0); [lia|].
      cbn [negb fst secret_buf secret_len set_secret_buf set_secret_len].
      split; [|lia].
      unfold len in *.
      rewrite !length_app, repeat_length, length_skipn. lia.
  - destruct Hv as [Hlen Hb]. unfold vault_wf.
    destruct (my_ioctl_cases HZ j cmd arg v) as [-> | ->]; split; assumption.
  - destruct Hv as [Hlen Hb]. unfold vault_wf.
    destruct (run_timers_cases j v) as [-> | [_ ->]]; split; assumption.
  - exact Hv.
Qed.

Lemma boot_wf : vault_wf boot.
Proof. unfold vault_wf. split; [reflexivity | split; discriminate]. Qed.

(** X13: the buffer keeps its size and secret_len stays within it, at the
    end of every history of well-typed calls (failed, denied and
    interrupted ones included). *)
Lemma run_wf (HZ : Z) (ops : list op) :
  forallb op_typed ops = true -> vault_wf (run HZ ops).
Proof.
  intros Hall. unfold run.
  apply (run_from_invariant HZ vault_wf op_typed); try assumption.
  - intros v a. apply exec_vault_wf.
  - exact boot_wf.
Qed.

Lemma locked_deadline_of_step (v : vault) :
  lock_in_step v -> (locked v = true <-> unlock_deadline v = None).
Proof.
  unfold lock_in_step, locked, unlock_deadline.
  intros [[Hu Hp] | [Hu Hp]]; rewrite Hu, Hp; split;
    try reflexivity; discriminate.
Qed.

(** *** The lock flag and the timer along a history in two-step time *)

Lemma my_ioctl_result_cases (HZ jiffies cmd : Z) (arg : ubuf) (v : vault) :
  (snd (my_ioctl HZ jiffies cmd arg v) = 0 /\
   fst (my_ioctl HZ jiffies cmd arg v)
   = set_lock_timer
       (mod_timer (lock_timer v) (ulong (jiffies + msecs_to_jiffies HZ 30000)))
       (set_is_unlocked 1 v)) \/
  (snd (my_ioctl HZ jiffies cmd arg v) <> 0 /\
   fst (my_ioctl HZ jiffies cmd arg v) = v).
Proof.
  unfold my_ioctl.
  destruct (cmd =? IOCTL_UNLOCK_VAULT); [|right; split; [discriminate | reflexivity]].
  destruct (copy_from_user (repeat x00 4) arg 4) as [ret pin].
  destruct (negb (ret =? 0)); [right; split; [discriminate | reflexivity]|].
  destruct (int_of_bytes (firstn 4 pin) =? VAULT_PIN);
    [left | right]; split; try reflexivity; discriminate.
Qed.

Lemma fire_data_keeps_lock (HZ : Z) (s : driver) (e : event) :
  match e with
  | EvRead _ _ _ _ | EvWrite _ _ _ _ =>
      is_unlocked (store (fire HZ s e)) = is_unlocked (store s) /\
      lock_timer (store (fire HZ s e)) = lock_timer (store s) /\
      callbacks (fire HZ s e) = callbacks s
  | _ => True
  end.
Proof.
  destruct e as [o buf count ppos|o buf count ppos|j cmd arg|j| |];
    try exact I; cbn [fire store callbacks].
  - rewrite my_read_state. repeat split.
  - destruct (my_write_lock_state o buf count ppos (store s)) as [-> ->].
    repeat split.
Qed.

Lemma fire_relock_on_the_way (HZ : Z) (s : driver) (e : event) :
  ev_is_exit e = false -> relock_on_the_way s -> relock_on_the_way (fire HZ s e).
Proof.
  unfold relock_on_the_way. intros He Hs.
  destruct e as [o buf count ppos|o buf count ppos|j cmd arg|j| |];
    try discriminate.
  - destruct (fire_data_keeps_lock HZ s (EvRead o buf count ppos))
      as [-> [-> ->]]. exact Hs.
  - destruct (fire_data_keeps_lock HZ s (EvWrite o buf count ppos))
      as [-> [-> ->]]. exact Hs.
  - cbn [fire store callbacks].
    destruct (my_ioctl_result_cases HZ j cmd arg (store s)) as [[_ ->] | [_ ->]];
      [right; left; reflexivity | exact Hs].
  - cbn [fire]. unfold expire_timer.
    destruct (pending (lock_timer (store s))
              && time_after_eq j (expires (lock_timer (store s))));
      [|exact Hs].
    right; right. cbn [callbacks]. apply Nat.lt_0_succ.
  - destruct s as [v c]. cbn [fire]. unfold run_callback. cbn in *.
    destruct c; [exact Hs | left; reflexivity].
Qed.

Lemma fire_calm_shape (HZ : Z) (s : driver) (e : event) :
  negb (unlock_served HZ s e) || (callbacks s =? 0)%nat = true ->
  calm_shape s -> calm_shape (fire HZ s e).
Proof.
  unfold calm_shape. intros Hc Hs.
  destruct e as [o buf count ppos|o buf count ppos|j cmd arg|j| |].
  - destruct (fire_data_keeps_lock HZ s (EvRead o buf count ppos))
      as [-> [-> ->]]. exact Hs.
  - destruct (fire_data_keeps_lock HZ s (EvWrite o buf count ppos))
      as [-> [-> ->]]. exact Hs.
  - cbn [fire store callbacks]. cbn [unlock_served] in Hc.
    destruct (my_ioctl_result_cases HZ j cmd arg (store s)) as [[E ->] | [_ ->]];
      [|exact Hs].
    rewrite E in Hc. cbn in Hc. apply Nat.eqb_eq in Hc.
    left. split; [exact Hc | reflexivity].
  - cbn [fire]. unfold expire_timer.
    destruct (pending (lock_timer (store s))
              && time_after_eq j (expires (lock_timer (store s)))) eqn:Hf;
      [|exact Hs].
    apply andb_prop in Hf. destruct Hf as [Hp _].
    destruct Hs as [[H0 _] | [_ Hi]]; [|congruence].
    right. cbn [callbacks store]. rewrite H0. split; reflexivity.
  - destruct s as [v c]. cbn [fire]. unfold run_callback. cbn in *.
    destruct c as [|c]; [exact Hs|]. cbn.
    destruct Hs as [[H0 _] | [H1 Hi]]; [discriminate|].
    left. split; [lia|]. rewrite Hi. discriminate.
  - left. split; [reflexivity | discriminate].
Qed.

Lemma fire_calm_shape_loaded (HZ : Z) (s : driver) (e : event) :
  negb (unlock_served HZ s e) || (callbacks s =? 0)%nat = true ->
  ev_is_exit e = false ->
  calm_shape_loaded s -> calm_shape_loaded (fire HZ s e).
Proof.
  unfold calm_shape_loaded, lock_in_step. intros Hc He Hs.
  destruct e as [o buf count ppos|o buf count ppos|j cmd arg|j| |];
    try discriminate.
  - destruct (fire_data_keeps_lock HZ s (EvRead o buf count ppos))
      as [-> [-> ->]]. exact Hs.
  - destruct (fire_data_keeps_lock HZ s (EvWrite o buf count ppos))
      as [-> [-> ->]]. exact Hs.
  - cbn [fire store callbacks]. cbn [unlock_served] in Hc.
    destruct (my_ioctl_result_cases HZ j cmd arg (store s)) as [[E ->] | [_ ->]];
      [|exact Hs].
    rewrite E in Hc. cbn in Hc. apply Nat.eqb_eq in Hc.
    left. split; [exact Hc|]. right. split; reflexivity.
  - cbn [fire]. unfold expire_timer.
    destruct (pending (lock_timer (store s))
              && time_after_eq j (expires (lock_timer (store s)))) eqn:Hf;
      [|exact Hs].
    apply andb_prop in Hf. destruct Hf as [Hp _].
    destruct Hs as [[H0 [[_ Hi] | [Hu _]]] | [_ [_ Hi]]]; try congruence.
    right. cbn [callbacks store]. rewrite H0.
    split; [reflexivity|]. split; [exact Hu | reflexivity].
  - destruct s as [v c]. cbn [fire]. unfold run_callback. cbn in *.
    destruct c as [|c]; [exact Hs|]. cbn.
    destruct Hs as [[H0 _] | [H1 [_ Hi]]]; [discriminate|].
    left. split; [lia|].
    left. split; [reflexivity | exact Hi].
Qed.

Lemma play_from_relock_on_the_way (HZ : Z) (evs : list event) :
  forall s,
    forallb (fun e => negb (ev_is_exit e)) evs = true ->
    relock_on_the_way s -> relock_on_the_way (play_from HZ s evs).
Proof.
  induction evs as [|e evs IH]; intros s Hall Hs; [exact Hs|].
  simpl in Hall. apply andb_prop in Hall. destruct Hall as [He Hall].
  unfold play_from. cbn [fold_left]. apply IH; [exact Hall|].
  apply fire_relock_on_the_way; [|exact Hs].
  now destruct (ev_is_exit e).
Qed.

Lemma play_from_calm_shape (HZ : Z) (evs : list event) :
  forall s, calm HZ s evs = true -> calm_shape s ->
            calm_shape (play_from HZ s evs).
Proof.
  induction evs as [|e evs IH]; intros s Hc Hs; [exact Hs|].
  cbn [calm] in Hc. apply andb_prop in Hc. destruct Hc as [He Hc].
  unfold play_from. cbn [fold_left]. apply IH; [exact Hc|].
  now apply fire_calm_shape.
Qed.

Lemma play_from_calm_shape_loaded (HZ : Z) (evs : list event) :
  forall s,
    calm HZ s evs = true ->
    forallb (fun e => negb (ev_is_exit e)) evs = true ->
    calm_shape_loaded s -> calm_shape_loaded (play_from HZ s evs).
Proof.
  induction evs as [|e evs IH]; intros s Hc Hall Hs; [exact Hs|].
  cbn [calm] in Hc. apply andb_prop in Hc. destruct Hc as [He Hc].
  simpl in Hall. apply andb_prop in Hall. destruct Hall as [Hx Hall].
  unfold play_from. cbn [fold_left]. apply IH; [exact Hc | exact Hall|].
  apply fire_calm_shape_loaded; [exact He | now destruct (ev_is_exit e) | exact Hs].
Qed.

(** C6, as the driver has it.  The timer core detaches an expired timer
    before [auto_lock_callback] takes the mutex, and module exit stops the
    timer without locking.  At the end of a history in which no unlock was
    served while a called callback was waiting, and once no callback waits:
    a locked store has no expiry pending; and if the module has not been
    unloaded, the store is locked exactly when no expiry is pending.  In
    every history without module exit, a store with no expiry pending and
    no callback waiting is locked. *)
Theorem lock_deadline_invariant (HZ : Z) (evs : list event) :
  (calm HZ boot_driver evs = true ->
   callbacks (play HZ evs) = 0%nat ->
   (locked (store (play HZ evs)) = true ->
    unlock_deadline (store (play HZ evs)) = None) /\
   (forallb (fun e => negb (ev_is_exit e)) evs = true ->
    (locked (store (play HZ evs)) = true
     <-> unlock_deadline (store (play HZ evs)) = None))) /\
  (forallb (fun e => negb (ev_is_exit e)) evs = true ->
   unlock_deadline (store (play HZ evs)) = None ->
   callbacks (play HZ evs) = 0%nat ->
   locked (store (play HZ evs)) = true).
Proof.
  split.
  - intros Hcalm Hc0. split.
    + assert (H : calm_shape (play HZ evs)).
      { apply play_from_calm_shape; [exact Hcalm|].
        left. split; [reflexivity | discriminate]. }
      destruct H as [[_ Hp] | [H1 _]]; [|congruence].
      unfold locked, unlock_deadline. intros Hl. apply Z.eqb_eq in Hl.
      destruct (pending (lock_timer (store (play HZ evs)))); [|reflexivity].
      specialize (Hp eq_refl). lia.
    + intros Hne.
      assert (H : calm_shape_loaded (play HZ evs)).
      { apply play_from_calm_shape_loaded; [exact Hcalm | exact Hne|].
        left. split; [reflexivity|]. left. split; reflexivity. }
      destruct H as [[_ Hstep] | [H1 _]]; [|congruence].
      now apply locked_deadline_of_step.
  - intros Hne Hd Hc0.
    assert (H : relock_on_the_way (play HZ evs)).
    { apply play_from_relock_on_the_way; [exact Hne|]. left. reflexivity. }
    unfold locked. apply Z.eqb_eq.
    destruct H as [Hu | [Hp | Hc]]; [exact Hu | | lia].
    unfold unlock_deadline in Hd. rewrite Hp in Hd. discriminate.
Qed.


(** * The theorems at work on the sample states *)

Ltac by_eval :=
  vm_compute; repeat split; try reflexivity; try (intros; discriminate).

Lemma vault_hello_wf : vault_wf vault_hello.
Proof. by_eval. Defined.

Lemma vault_unlocked_wf : vault_wf vault_unlocked.
Proof. by_eval. Defined.

Lemma access_iff_unlocked_witness :
  vault_wf vault_hello /\
  0 <= 5 <= len (repeat x00 5) /\
  (0 <= r_ret (snd (my_read Acquired (repeat x00 5) 5 0 vault_hello))
   <-> locked vault_hello = false).
Proof.
  assert (Hc : 0 <= 5 <= len (repeat x00 5)) by by_eval.
  split; [exact vault_hello_wf|]. split; [exact Hc|].
  exact (proj1 (access_iff_unlocked vault_hello (repeat x00 5) 5 0 hello 0
                  vault_hello_wf Hc)).
Defined.

Lemma write_read_roundtrip_witness :
  len hello <= MAX_SECRET /\
  locked vault_unlocked = false /\
  len hello <= len (repeat x00 5) /\
  w_ret (snd (my_write Acquired hello (len hello) 7 vault_unlocked)) = len hello.
Proof.
  assert (H1 : len hello <= MAX_SECRET) by by_eval.
  assert (H2 : locked vault_unlocked = false) by by_eval.
  assert (H3 : len hello <= len (repeat x00 5)) by by_eval.
  split; [exact H1|]. split; [exact H2|]. split; [exact H3|].
  exact (proj1 (write_read_roundtrip hello (repeat x00 5) 7 vault_unlocked
                  H1 H2 H3)).
Defined.

Lemma unlock_mismatch_state_unchanged_witness :
  INT_MIN <= 9999 <= INT_MAX /\
  9999 <> VAULT_PIN /\
  snd (unlock 250 1000 9999 boot) = - EACCES.
Proof.
  assert (H1 : INT_MIN <= 9999 <= INT_MAX) by by_eval.
  assert (H2 : 9999 <> VAULT_PIN) by by_eval.
  split; [exact H1|]. split; [exact H2|].
  exact (proj1 (unlock_mismatch_state_unchanged 250 1000 9999 boot H1 H2)).
Defined.

Lemma unlock_arms_single_deadline_witness :
  0 < 250 /\
  1000 mod 250 = 0 /\
  snd (unlock 250 1000 VAULT_PIN vault_hello) = 0.
Proof.
  assert (H1 : 0 < 250) by reflexivity.
  assert (H2 : 1000 mod 250 = 0) by reflexivity.
  split; [exact H1|]. split; [exact H2|].
  exact (proj1 (unlock_arms_single_deadline 250 1000 vault_hello H1 H2)).
Defined.

Lemma write_truncates_witness :
  MAX_SECRET < len (repeat x41 (Z.to_nat 5000)) /\
  locked vault_unlocked = false /\
  w_ret (snd (my_write Acquired (repeat x41 (Z.to_nat 5000))
                (len (repeat x41 (Z.to_nat 5000))) 0 vault_unlocked))
  = MAX_SECRET.
Proof.
  assert (H1 : MAX_SECRET < len (repeat x41 (Z.to_nat 5000))) by by_eval.
  assert (H2 : locked vault_unlocked = false) by by_eval.
  split; [exact H1|]. split; [exact H2|].
  exact (proj1 (write_truncates (repeat x41 (Z.to_nat 5000)) 0 vault_unlocked
                  H1 H2)).
Defined.

Lemma lock_deadline_invariant_witness :
  calm 250 boot_driver
    [EvIoctl 1000 IOCTL_UNLOCK_VAULT (bytes_of_int VAULT_PIN);
     EvExpire 9000; EvCallback] = true /\
  callbacks
    (play 250 [EvIoctl 1000 IOCTL_UNLOCK_VAULT (bytes_of_int VAULT_PIN);
               EvExpire 9000; EvCallback]) = 0%nat /\
  forallb (fun e => negb (ev_is_exit e))
    [EvIoctl 1000 IOCTL_UNLOCK_VAULT (bytes_of_int VAULT_PIN);
     EvExpire 9000; EvCallback] = true /\
  (locked
     (store
        (play 250 [EvIoctl 1000 IOCTL_UNLOCK_VAULT (bytes_of_int VAULT_PIN);
                   EvExpire 9000; EvCallback])) = true
   <-> unlock_deadline
         (store
            (play 250 [EvIoctl 1000 IOCTL_UNLOCK_VAULT (bytes_of_int VAULT_PIN);
                       EvExpire 9000; EvCallback])) = None).
Proof.
  assert (H1 : calm 250 boot_driver
                 [EvIoctl 1000 IOCTL_UNLOCK_VAULT (bytes_of_int VAULT_PIN);
                  EvExpire 9000; EvCallback] = true) by by_eval.
  assert (H2 : callbacks
                 (play 250
                    [EvIoctl 1000 IOCTL_UNLOCK_VAULT (bytes_of_int VAULT_PIN);
                     EvExpire 9000; EvCallback]) = 0%nat) by by_eval.
  split; [exact H1|]. split; [exact H2|]. split; [reflexivity|].
  exact (proj2 (proj1 (lock_deadline_invariant 250
                         [EvIoctl 1000 IOCTL_UNLOCK_VAULT (bytes_of_int VAULT_PIN);
                          EvExpire 9000; EvCallback]) H1 H2) eq_refl).
Defined.

Lemma read_window_witness :
  vault_wf vault_hello /\
  locked vault_hello = false /\
  0 <= 1 <= LLONG_MAX /\
  0 <= 3 <= len (repeat x00 5) /\
  (1 < secret_len vault_hello ->
   r_ret (snd (my_read Acquired (repeat x00 5) 3 1 vault_hello))
   = Z.min 3 (secret_len vault_hello - 1)).
Proof.
  assert (H2 : locked vault_hello = false) by by_eval.
  assert (H3 : 0 <= 1 <= LLONG_MAX) by by_eval.
  assert (H4 : 0 <= 3 <= len (repeat x00 5)) by by_eval.
  split; [exact vault_hello_wf|]. split; [exact H2|].
  split; [exact H3|]. split; [exact H4|].
  intros Hlt.
  exact (proj1 (proj2 (read_window (repeat x00 5) 3 1 vault_hello
                         vault_hello_wf H2 H3 H4) Hlt)).
Defined.

Lemma read_moves_only_cursor_witness :
  vault_wf vault_hello /\
  0 <= 0 <= LLONG_MAX /\
  0 <= 5 /\
  fst (my_read Acquired (repeat x00 5) 5 0 vault_hello) = vault_hello.
Proof.
  assert (H2 : 0 <= 0 <= LLONG_MAX) by by_eval.
  assert (H3 : 0 <= 5) by by_eval.
  split; [exact vault_hello_wf|]. split; [exact H2|]. split; [exact H3|].
  exact (proj1 (read_moves_only_cursor Acquired (repeat x00 5) 5 0 vault_hello
                  vault_hello_wf H2 H3)).
Defined.

Lemma lock_transitions_keep_secret_witness :
  len hello <= MAX_SECRET /\
  locked vault_unlocked = false /\
  len hello <= len (repeat x00 5) /\
  forallb is_lock_op
    [OpTimer 9000; OpIoctl 9100 IOCTL_UNLOCK_VAULT (bytes_of_int 9999)] = true /\
  read_data
    (snd (my_read Acquired (repeat x00 5) (len hello) 0
            (fst (unlock 250 20000 VAULT_PIN
                    (run_from 250
                       (fst (my_write Acquired hello (len hello) 0 vault_unlocked))
                       [OpTimer 9000;
                        OpIoctl 9100 IOCTL_UNLOCK_VAULT (bytes_of_int 9999)])))))
  = hello.
Proof.
  assert (H1 : len hello <= MAX_SECRET) by by_eval.
  assert (H2 : locked vault_unlocked = false) by by_eval.
  assert (H3 : len hello <= len (repeat x00 5)) by by_eval.
  split; [exact H1|]. split; [exact H2|]. split; [exact H3|].
  split; [reflexivity|].
  pose proof (proj2 (proj2 (proj2 (lock_transitions_keep_secret 250)))) as H.
  exact (proj2 (proj2 (proj2 (proj2
           (H hello (repeat x00 5) 0 20000
              [OpTimer 9000; OpIoctl 9100 IOCTL_UNLOCK_VAULT (bytes_of_int 9999)]
              vault_unlocked H1 H2 H3 eq_refl))))).
Defined.

(** The walk-through of the driver's life: denied while locked, unlocked by
    the PIN, write and read back, locked again once the 30 s are over, and a
    wrong PIN changes nothing. *)
Example vault_walkthrough :
  r_ret (snd (my_read Acquired (repeat x00 10) 10 0 boot)) = - EACCES /\
  snd (unlock 250 1000 VAULT_PIN boot) = 0 /\
  unlock_deadline vault_unlocked = Some 8500 /\
  w_ret (snd (my_write Acquired hello 5 0 vault_unlocked)) = 5 /\
  read_data (snd (my_read Acquired (repeat x00 5) 5 0 vault_hello)) = hello /\
  run_timers 8499 vault_hello = vault_hello /\
  r_ret (snd (my_read Acquired (repeat x00 5) 5 0 (run_timers 8500 vault_hello)))
  = - EACCES /\
  unlock 250 1000 9999 boot = (boot, - EACCES).
Proof. vm_compute. repeat split. Qed.

(** ** Where the driver departs from the stated behaviour *)

(** After unlock and module exit the store is unlocked with no expiry
    pending: the two sides of the stated equivalence differ. *)
Lemma exit_breaks_lock_deadline_iff :
  ~ (locked (run 250 [OpIoctl 1000 IOCTL_UNLOCK_VAULT (bytes_of_int VAULT_PIN);
                      OpExit]) = true
     <-> unlock_deadline
           (run 250 [OpIoctl 1000 IOCTL_UNLOCK_VAULT (bytes_of_int VAULT_PIN);
                     OpExit]) = None).
Proof.
  vm_compute. intros [_ H]. specialize (H eq_refl). discriminate.
Qed.

(** A successful read moves the file position (0 becomes 5 here), and the
    same read call issued again on that file returns no bytes, not "hello". *)
Lemma read_advances_cursor :
  r_pos (snd (my_read Acquired (repeat x00 5) 5 0 vault_hello)) = 5 /\
  read_data (snd (my_read Acquired (repeat x00 5) 5 0 vault_hello)) = hello /\
  read_data
    (snd (my_read Acquired (repeat x00 5) 5
            (r_pos (snd (my_read Acquired (repeat x00 5) 5 0 vault_hello)))
            vault_hello)) = [].
Proof. vm_compute. repeat split. Qed.


(** * Further properties of the driver *)

(** ** Reads, on every path *)

Lemma size_t_nonneg (x : Z) : 0 <= size_t x.
Proof. unfold size_t, unsigned_wrap. apply Z.mod_pos_bound. reflexivity. Qed.

(** An unlocked read at a valid position, into a buffer with room for what
    is copied: the end-of-data path and the copying path in one equation. *)
Lemma my_read_at (buf : ubuf) (count off : Z) (v : vault) :
  vault_wf v ->
  locked v = false ->
  0 <= off <= LLONG_MAX ->
  0 <= count ->
  Z.min count (secret_len v - off) <= len buf ->
  let n := Z.max 0 (Z.min count (secret_len v - off)) in
  my_read Acquired buf count off v
  = (v, mk_read_out n
          (firstn (Z.to_nat n) (skipn (Z.to_nat off) (secret_buf v))
             ++ skipn (Z.to_nat n) buf)
          (off + n)).
Proof.
  intros [Hlen [Hlo Hhi]] Hu Hoff Hc Hroom n.
  assert (Hs : size_t off = off)
    by (apply size_t_small; unfold LLONG_MAX in Hoff; lia).
  destruct (Z.le_gt_cases (secret_len v) off) as [Heof|Hin].
  - rewrite my_read_eof by (try assumption; lia).
    replace n with 0 by (subst n; lia). simpl. now rewrite Z.add_0_r.
  - rewrite my_read_copy by (try assumption; lia).
    rewrite Hs. replace n with (Z.min count (secret_len v - off)) by (subst n; lia).
    rewrite loff_t_small by (unfold MAX_SECRET in Hhi; lia). reflexivity.
Qed.

Lemma read_data_at (buf : ubuf) (count off : Z) (v : vault) :
  vault_wf v ->
  locked v = false ->
  0 <= off <= LLONG_MAX ->
  0 <= count <= len buf ->
  read_data (snd (my_read Acquired buf count off v))
  = firstn (Z.to_nat (Z.max 0 (Z.min count (secret_len v - off))))
      (skipn (Z.to_nat off) (secret_buf v)).
Proof.
  intros Hwf Hu Hoff Hc. rewrite my_read_at by (try assumption; lia).
  destruct Hwf as [Hlen [Hlo Hhi]].
  unfold read_data. cbn [snd r_ret r_buf].
  apply firstn_all_app. rewrite length_firstn, length_skipn.
  unfold len, MAX_SECRET in *. lia.
Qed.

Lemma firstn_then_more {A : Type} (a b : nat) (l : list A) :
  firstn a l ++ firstn b (skipn a l) = firstn (a + b) l.
Proof.
  revert l. induction a as [|a IH]; intros l.
  - reflexivity.
  - destruct l as [|x l].
    + simpl. now rewrite firstn_nil.
    + simpl. now rewrite IH.
Qed.

(** X1: an unlocked read fails with -EFAULT exactly when there are bytes to
    copy and the user buffer is too short for them; such a read changes
    neither the store nor the file position. *)
Theorem read_fault_iff (buf : ubuf) (count off : Z) (v : vault) :
  vault_wf v ->
  0 <= off <= LLONG_MAX ->
  0 <= count ->
  let rd := my_read Acquired buf count off v in
  (r_ret (snd rd) = - EFAULT <->
   locked v = false /\ off < secret_len v /\
   len buf < Z.min count (secret_len v - off)) /\
  (r_ret (snd rd) = - EFAULT -> fst rd = v /\ r_pos (snd rd) = off).
Proof.
  intros Hwf Hoff Hc rd. subst rd.
  pose proof Hwf as [Hlen [Hlo Hhi]].
  assert (Hs : size_t off = off)
    by (apply size_t_small; unfold LLONG_MAX in Hoff; lia).
  destruct (locked v) eqn:Hu.
  - rewrite my_read_locked by exact Hu. cbn. unfold EACCES, EFAULT.
    split; [split|]; try (intros [? _]); try discriminate.
  - destruct (Z.le_gt_cases (Z.min count (secret_len v - off)) (len buf))
      as [Hok|Hbad].
    + rewrite my_read_at by assumption. cbn [fst snd r_ret r_pos].
      unfold EFAULT. split; [split|]; lia.
    + pose proof (len_nonneg buf) as Hb.
      rewrite my_read_fault by (try assumption; lia). cbn [fst snd r_ret r_pos].
      split; [split|]; auto. intros _. repeat split; lia.
Qed.

(** X2: reading in two pieces, the second from the position the first one
    left, returns the same bytes as one read of the two counts together. *)
Theorem chunked_reads_reassemble
  (buf1 buf2 : ubuf) (c1 c2 off : Z) (v : vault) :
  vault_wf v ->
  locked v = false ->
  0 <= off <= LLONG_MAX ->
  0 <= c1 <= len buf1 ->
  0 <= c2 <= len buf2 ->
  let r1 := snd (my_read Acquired buf1 c1 off v) in
  let r2 := snd (my_read Acquired buf2 c2 (r_pos r1) v) in
  read_data r1 ++ read_data r2
  = firstn (Z.to_nat (c1 + c2)) (skipn (Z.to_nat off) (secret v)) /\
  r_pos r2 = off + r_ret r1 + r_ret r2.
Proof.
  intros Hwf Hu Hoff Hc1 Hc2 r1 r2.
  pose proof Hwf as [Hlen [Hlo Hhi]].
  set (n1 := Z.max 0 (Z.min c1 (secret_len v - off))).
  assert (Hr1 : snd (my_read Acquired buf1 c1 off v)
                = mk_read_out n1
                    (firstn (Z.to_nat n1) (skipn (Z.to_nat off) (secret_buf v))
                       ++ skipn (Z.to_nat n1) buf1) (off + n1))
    by (rewrite my_read_at by (try assumption; lia); reflexivity).
  assert (Hpos : r_pos r1 = off + n1) by (subst r1; now rewrite Hr1).
  assert (Hret : r_ret r1 = n1) by (subst r1; now rewrite Hr1).
  assert (Hoff2 : 0 <= off + n1 <= LLONG_MAX)
    by (unfold LLONG_MAX, MAX_SECRET in *; lia).
  set (n2 := Z.max 0 (Z.min c2 (secret_len v - (off + n1)))).
  assert (Hd1 : read_data r1
                = firstn (Z.to_nat n1) (skipn (Z.to_nat off) (secret_buf v)))
    by (subst r1; now apply read_data_at).
  assert (Hd2 : read_data r2
                = firstn (Z.to_nat n2)
                    (skipn (Z.to_nat (off + n1)) (secret_buf v)))
    by (subst r2; rewrite Hpos; now apply read_data_at).
  split.
  - rewrite Hd1, Hd2.
    replace (Z.to_nat (off + n1)) with (Z.to_nat n1 + Z.to_nat off)%nat by lia.
    rewrite <- skipn_skipn, firstn_then_more.
    unfold secret. rewrite skipn_firstn_comm, firstn_firstn.
    f_equal. unfold MAX_SECRET in *. lia.
  - subst r2. rewrite Hpos, Hret.
    rewrite my_read_at by (try assumption; lia). cbn [snd r_pos r_ret].
    fold n2. lia.
Qed.

(** ** Writes, on every path *)

Lemma my_write_copy (buf : ubuf) (count ppos : Z) (v : vault) :
  locked v = false ->
  0 <= count ->
  Z.min count MAX_SECRET <= len buf ->
  let n := Z.min count MAX_SECRET in
  my_write Acquired buf count ppos v
  = (set_secret_len n
       (set_secret_buf
          (firstn (Z.to_nat n) buf ++ skipn (Z.to_nat n) (secret_buf v)) v),
     mk_write_out n 0).
Proof.
  intros Hu Hc Hroom n. unfold locked in Hu.
  unfold my_write. cbn [mutex_lock_interruptible].
  change (negb (0 =? 0)) with false. cbv iota. rewrite Hu.
  change (size_t MAX_SECRET) with MAX_SECRET. fold n.
  rewrite copy_from_user_ok by exact Hroom.
  change (negb (0 =? 0)) with false. cbv iota.
  rewrite ssize_t_small by (unfold MAX_SECRET in n; lia). reflexivity.
Qed.

Lemma my_write_fault (buf : ubuf) (count ppos : Z) (v : vault) :
  locked v = false ->
  len buf < Z.min count MAX_SECRET ->
  let n := Z.min count MAX_SECRET in
  my_write Acquired buf count ppos v
  = (set_secret_buf
       (buf ++ repeat x00 (Z.to_nat (n - len buf))
            ++ skipn (Z.to_nat n) (secret_buf v)) v,
     mk_write_out (- EFAULT) ppos).
Proof.
  intros Hu Hshort n. unfold locked in Hu.
  unfold my_write. cbn [mutex_lock_interruptible].
  change (negb (0 =? 0)) with false. cbv iota. rewrite Hu.
  change (size_t MAX_SECRET) with MAX_SECRET. fold n.
  unfold copy_from_user.
  destruct (Z.leb_spec n (len buf)); [lia|].
  destruct (Z.eqb_spec (n - len buf) 0); [lia | reflexivity].
Qed.

Lemma my_write_wf (o : lock_outcome) (buf : ubuf) (count ppos : Z) (v : vault) :
  0 <= count -> vault_wf v -> vault_wf (fst (my_write o buf count ppos v)).
Proof.
  intros Hc Hwf. pose proof Hwf as [Hlen [Hlo Hhi]].
  pose proof (len_nonneg buf) as Hb.
  destruct o; [|exact Hwf].
  destruct (locked v) eqn:Hu; [now rewrite my_write_locked|].
  destruct (Z.le_gt_cases (Z.min count MAX_SECRET) (len buf)) as [Hok|Hbad].
  - rewrite my_write_copy by assumption. unfold vault_wf.
    cbn [fst secret_buf secret_len set_secret_buf set_secret_len].
    split; [|unfold MAX_SECRET; lia].
    unfold len in *. rewrite length_app, length_firstn, length_skipn.
    unfold MAX_SECRET in *. lia.
  - rewrite my_write_fault by assumption. unfold vault_wf.
    cbn [fst secret_buf secret_len set_secret_buf].
    split; [|lia].
    unfold len in *. rewrite !length_app, repeat_length, length_skipn.
    unfold MAX_SECRET in *. lia.
Qed.

(** X3: an unlocked write fails with -EFAULT exactly when the user buffer is
    shorter than the bytes to copy.  Such a write keeps secret_len, the lock
    flag, the timer and the file position, but the front of the buffer has
    already been overwritten with the bytes that could be read, so the old
    secret is not preserved. *)
Theorem write_fault_iff (buf : ubuf) (count ppos : Z) (v : vault) :
  0 <= count ->
  let wr := my_write Acquired buf count ppos v in
  (w_ret (snd wr) = - EFAULT <->
   locked v = false /\ len buf < Z.min count MAX_SECRET) /\
  (w_ret (snd wr) = - EFAULT ->
   secret_len (fst wr) = secret_len v /\
   is_unlocked (fst wr) = is_unlocked v /\
   lock_timer (fst wr) = lock_timer v /\
   w_pos (snd wr) = ppos /\
   firstn (length buf) (secret_buf (fst wr)) = buf).
Proof.
  intros Hc wr. subst wr.
  destruct (locked v) eqn:Hu.
  - rewrite my_write_locked by exact Hu. cbn. unfold EACCES, EFAULT.
    split; [split|]; try (intros [? _]); try discriminate.
  - destruct (Z.le_gt_cases (Z.min count MAX_SECRET) (len buf)) as [Hok|Hbad].
    + rewrite my_write_copy by assumption. cbn [fst snd w_ret w_pos].
      unfold EFAULT, MAX_SECRET in *. split; [split|]; lia.
    + rewrite my_write_fault by (try assumption; lia).
      cbn [fst snd w_ret w_pos secret_buf secret_len is_unlocked lock_timer
           set_secret_buf].
      split; [split|]; auto. intros _. repeat split.
      now apply firstn_all_app.
Qed.

(** X4: the last write wins.  After a write of [X] (of any length) and then
    a write of [Y], a read that asks for the whole capacity returns exactly
    [Y]: nothing of [X] can be read, even when [X] was the longer one. *)
Theorem overwrite_hides_previous
  (X Y : list byte) (rbuf : ubuf) (p1 p2 : Z) (v : vault) :
  vault_wf v ->
  locked v = false ->
  len Y <= MAX_SECRET ->
  MAX_SECRET <= len rbuf ->
  let v1 := fst (my_write Acquired X (len X) p1 v) in
  let v2 := fst (my_write Acquired Y (len Y) p2 v1) in
  let rd := snd (my_read Acquired rbuf MAX_SECRET 0 v2) in
  secret v2 = Y /\ r_ret rd = len Y /\ read_data rd = Y.
Proof.
  intros Hwf Hu HY Hroom v1 v2 rd.
  pose proof (len_nonneg X) as HX0. pose proof (len_nonneg Y) as HY0.
  assert (Hu1 : locked v1 = false).
  { unfold locked in *. subst v1.
    now destruct (my_write_lock_state Acquired X (len X) p1 v) as [-> _]. }
  assert (Hwf2 : vault_wf v2) by (subst v2 v1; now repeat apply my_write_wf).
  assert (Hu2 : locked v2 = false).
  { unfold locked in *. subst v2.
    now destruct (my_write_lock_state Acquired Y (len Y) p2 v1) as [-> _]. }
  destruct (my_write_stores Y p2 v1 HY Hu1) as [Hs Hl].
  fold v2 in Hs, Hl.
  assert (Hn : Z.max 0 (Z.min MAX_SECRET (secret_len v2 - 0)) = len Y)
    by (rewrite Hl; lia).
  split; [exact Hs|]. subst rd. split.
  - rewrite my_read_at;
      [| exact Hwf2 | exact Hu2 | unfold LLONG_MAX; lia | unfold MAX_SECRET; lia
       | lia].
    cbn [snd r_ret]. exact Hn.
  - rewrite read_data_at;
      [| exact Hwf2 | exact Hu2 | unfold LLONG_MAX; lia | unfold MAX_SECRET in *; lia].
    rewrite Hn. change (Z.to_nat 0) with 0%nat. rewrite skipn_O.
    rewrite <- Hl. exact Hs.
Qed.

(** X5: a write does not clear what lies behind the bytes it copies: the
    buffer past the new length holds the bytes it held before (for instance
    the tail of an earlier, longer secret), and the buffer keeps its size. *)
Theorem write_keeps_tail (X : list byte) (ppos : Z) (v : vault) :
  vault_wf v ->
  locked v = false ->
  len X <= MAX_SECRET ->
  let v' := fst (my_write Acquired X (len X) ppos v) in
  skipn (length X) (secret_buf v') = skipn (length X) (secret_buf v) /\
  len (secret_buf v') = MAX_SECRET.
Proof.
  intros [Hlen [Hlo Hhi]] Hu HX v'. subst v'.
  rewrite my_write_unlocked by exact Hu.
  rewrite Z.min_l by exact HX.
  cbn [fst secret_buf set_secret_buf set_secret_len].
  rewrite firstn_len. unfold len at 1 2. rewrite Nat2Z.id. split.
  - rewrite skipn_app, skipn_all, Nat.sub_diag. reflexivity.
  - unfold len in *. rewrite length_app, length_skipn. lia.
Qed.

(** ** The ioctl, on every path *)

Lemma my_ioctl_other (HZ j cmd : Z) (arg : ubuf) (v : vault) :
  cmd <> IOCTL_UNLOCK_VAULT -> my_ioctl HZ j cmd arg v = (v, - EINVAL).
Proof.
  intros H. unfold my_ioctl.
  destruct (Z.eqb_spec cmd IOCTL_UNLOCK_VAULT); [contradiction | reflexivity].
Qed.

Lemma my_ioctl_unlock_fault (HZ j : Z) (arg : ubuf) (v : vault) :
  len arg < 4 -> my_ioctl HZ j IOCTL_UNLOCK_VAULT arg v = (v, - EFAULT).
Proof.
  intros H. unfold my_ioctl. rewrite Z.eqb_refl. unfold copy_from_user.
  destruct (Z.leb_spec 4 (len arg)); [lia|].
  destruct (Z.eqb_spec (4 - len arg) 0); [lia | reflexivity].
Qed.

Lemma my_ioctl_unlock_readable (HZ j : Z) (arg : ubuf) (v : vault) :
  4 <= len arg ->
  my_ioctl HZ j IOCTL_UNLOCK_VAULT arg v
  = if int_of_bytes (firstn 4 arg) =? VAULT_PIN
    then (set_lock_timer
            (mod_timer (lock_timer v) (ulong (j + LOCK_DURATION HZ)))
            (set_is_unlocked 1 v), 0)
    else (v, - EACCES).
Proof.
  intros H. unfold my_ioctl, LOCK_DURATION. rewrite Z.eqb_refl.
  rewrite copy_from_user_ok by exact H.
  change (negb (0 =? 0)) with false. cbv iota.
  change (Z.to_nat 4) with 4%nat.
  change (skipn 4 (repeat x00 4)) with (@nil byte).
  rewrite app_nil_r, firstn_firstn. reflexivity.
Qed.

(** X6: the ioctl returns 0 exactly when the command is the unlock command,
    four bytes can be read at the user address and they hold the PIN; then
    the store is unlocked with the expiry 30 s ahead.  On every other call
    the state is left as it was: -EINVAL for another command, -EFAULT for
    an unreadable argument, -EACCES for another number. *)
Theorem ioctl_unlocks_iff (HZ j cmd : Z) (arg : ubuf) (v : vault) :
  let r := my_ioctl HZ j cmd arg v in
  (snd r = 0 <->
   cmd = IOCTL_UNLOCK_VAULT /\ 4 <= len arg /\
   int_of_bytes (firstn 4 arg) = VAULT_PIN) /\
  (snd r <> 0 -> fst r = v) /\
  (cmd <> IOCTL_UNLOCK_VAULT -> snd r = - EINVAL) /\
  (cmd = IOCTL_UNLOCK_VAULT -> len arg < 4 -> snd r = - EFAULT) /\
  (cmd = IOCTL_UNLOCK_VAULT -> 4 <= len arg ->
   int_of_bytes (firstn 4 arg) <> VAULT_PIN -> snd r = - EACCES) /\
  (snd r = 0 ->
   locked (fst r) = false /\
   unlock_deadline (fst r) = Some (ulong (j + LOCK_DURATION HZ)) /\
   secret_buf (fst r) = secret_buf v /\ secret_len (fst r) = secret_len v).
Proof.
  intros r. subst r.
  destruct (Z.eq_dec cmd IOCTL_UNLOCK_VAULT) as [->|Hcmd].
  - destruct (Z.lt_ge_cases (len arg) 4) as [Hshort|Hok].
    + rewrite my_ioctl_unlock_fault by exact Hshort. cbn [fst snd].
      unfold EFAULT.
      repeat split; try reflexivity; try discriminate; try lia; try tauto.
    + rewrite my_ioctl_unlock_readable by exact Hok.
      destruct (Z.eqb_spec (int_of_bytes (firstn 4 arg)) VAULT_PIN) as [E|E];
        cbn [fst snd]; unfold EACCES;
        repeat split; try reflexivity; try discriminate; try lia; try tauto.
  - rewrite my_ioctl_other by exact Hcmd. cbn [fst snd]. unfold EINVAL.
    repeat split; try reflexivity; try discriminate; try lia; try tauto.
Qed.

(** ** Who moves the lock flag *)

(** X7: the only call that takes the store from locked to unlocked is the
    unlock ioctl with four readable bytes holding the PIN. *)
Theorem only_unlock_ioctl_unlocks (HZ : Z) (v : vault) (a : op) :
  locked v = true ->
  locked (exec HZ v a) = false ->
  exists j arg,
    a = OpIoctl j IOCTL_UNLOCK_VAULT arg /\ 4 <= len arg /\
    int_of_bytes (firstn 4 arg) = VAULT_PIN.
Proof.
  intros Hl Hu.
  destruct a as [o buf count ppos|o buf count ppos|j cmd arg|j|];
    cbn [exec] in Hu.
  - rewrite my_read_state in Hu. congruence.
  - unfold locked in *.
    destruct (my_write_lock_state o buf count ppos v) as [E _].
    rewrite E in Hu. congruence.
  - destruct (Z.eq_dec cmd IOCTL_UNLOCK_VAULT) as [->|Hcmd].
    + destruct (Z.lt_ge_cases (len arg) 4) as [Hshort|Hok].
      * rewrite my_ioctl_unlock_fault in Hu by exact Hshort.
        cbn [fst] in Hu. congruence.
      * rewrite my_ioctl_unlock_readable in Hu by exact Hok.
        destruct (Z.eqb_spec (int_of_bytes (firstn 4 arg)) VAULT_PIN) as [E|E].
        -- exists j, arg. auto.
        -- cbn [fst] in Hu. congruence.
    + rewrite my_ioctl_other in Hu by exact Hcmd. cbn [fst] in Hu. congruence.
  - destruct (run_timers_cases j v) as [E | [_ E]]; rewrite E in Hu.
    + congruence.
    + discriminate.
  - unfold locked in *. cbn in Hu. congruence.
Qed.

(** X8: the only step that takes the store from unlocked to locked is
    [auto_lock_callback] getting the mutex (on its own, or waited for by
    module exit), and a callback is only ever called by the timer core
    finding the pending timer's expiry reached; reads, writes, ioctls and
    the timer core itself never lock the store. *)
Theorem only_callback_locks (HZ : Z) (s : driver) (e : event) :
  (locked (store s) = false ->
   locked (store (fire HZ s e)) = true ->
   (e = EvCallback \/ e = EvExit) /\ (0 < callbacks s)%nat) /\
  ((callbacks s < callbacks (fire HZ s e))%nat ->
   exists j d,
     e = EvExpire j /\ unlock_deadline (store s) = Some d /\
     time_after_eq j d = true /\
     callbacks (fire HZ s e) = S (callbacks s) /\
     locked (store (fire HZ s e)) = locked (store s)).
Proof.
  destruct s as [v c]. split.
  - intros Hu Hl. cbn [store callbacks] in *.
    destruct e as [o buf count ppos|o buf count ppos|j cmd arg|j| |];
      cbn [fire store callbacks] in Hl.
    + rewrite my_read_state in Hl. congruence.
    + unfold locked in *.
      destruct (my_write_lock_state o buf count ppos v) as [E _].
      rewrite E in Hl. congruence.
    + destruct (my_ioctl_cases HZ j cmd arg v) as [E | E]; rewrite E in Hl.
      * congruence.
      * discriminate.
    + unfold expire_timer in Hl. cbn [store callbacks] in Hl.
      destruct (pending (lock_timer v) && time_after_eq j (expires (lock_timer v)));
        cbn [store] in Hl; unfold locked in *; cbn in Hl; congruence.
    + unfold run_callback in Hl. cbn [callbacks store] in Hl.
      destruct c; [cbn [store] in Hl; congruence|].
      split; [now left | apply Nat.lt_0_succ].
    + unfold exit_driver in Hl. cbn [callbacks store] in Hl.
      destruct c; [unfold locked in *; cbn in Hl; congruence|].
      split; [now right | apply Nat.lt_0_succ].
  - intros Hlt.
    destruct e as [o buf count ppos|o buf count ppos|j cmd arg|j| |];
      cbn [fire store callbacks] in Hlt; try lia.
    + exists j, (expires (lock_timer v)). cbn [fire store callbacks].
      unfold expire_timer, unlock_deadline in *. cbn [store callbacks] in *.
      destruct (pending (lock_timer v)); [|cbn in Hlt; lia].
      destruct (time_after_eq j (expires (lock_timer v)));
        [|cbn in Hlt; lia].
      cbn. repeat split.
    + unfold run_callback in Hlt. cbn [callbacks] in Hlt.
      destruct c; cbn [callbacks] in Hlt; lia.
    + unfold exit_driver in Hlt. cbn [callbacks] in Hlt. lia.
Qed.

(** X9: while the store is locked, no sequence of reads and writes,
    whatever their buffers, counts and positions, changes anything in it. *)
Theorem locked_store_frozen (HZ : Z) (ops : list op) (v : vault) :
  forallb is_data_op ops = true ->
  locked v = true ->
  run_from HZ v ops = v.
Proof.
  intros Hall Hl. induction ops as [|a ops IH].
  - reflexivity.
  - simpl in Hall. apply andb_prop in Hall. destruct Hall as [Ha Hall].
    unfold run_from in *. cbn [fold_left].
    assert (E : exec HZ v a = v).
    { destruct a as [o buf count ppos|o buf count ppos|j cmd arg|j|];
        try discriminate; cbn [exec].
      - apply my_read_state.
      - destruct o; [now rewrite my_write_locked | reflexivity]. }
    rewrite E. now apply IH.
Qed.

(** ** The unlock window *)

Lemma long_sub_ulong (a b : Z) : long (ulong a - ulong b) = long (a - b).
Proof.
  unfold long, ulong, signed_wrap, unsigned_wrap. f_equal.
  rewrite <- (Zplus_mod_idemp_l (a mod 2 ^ BITS_PER_LONG - b mod 2 ^ BITS_PER_LONG)).
  rewrite <- Zminus_mod. apply Zplus_mod_idemp_l.
Qed.

Lemma time_after_eq_elapsed (t a b : Z) :
  - 2 ^ 63 <= a - b < 2 ^ 63 ->
  time_after_eq (ulong (t + a)) (ulong (t + b)) = (b <=? a).
Proof.
  intros H. unfold time_after_eq. rewrite long_sub_ulong.
  replace (t + a - (t + b)) with (a - b) by lia.
  unfold long. rewrite signed_wrap_small by (try reflexivity; exact H).
  destruct (Z.leb_spec 0 (a - b)), (Z.leb_spec b a); try reflexivity; lia.
Qed.

Lemma long_mod_eq (x y : Z) :
  x mod 2 ^ 64 = y mod 2 ^ 64 -> long x = long y.
Proof.
  intros H. unfold long, signed_wrap, BITS_PER_LONG. f_equal.
  rewrite <- (Zplus_mod_idemp_l x), H. apply Zplus_mod_idemp_l.
Qed.

Lemma time_after_eq_before (t d j : Z) :
  0 < d <= 2 ^ 63 ->
  ulong (j - t) < d ->
  time_after_eq j (ulong (t + d)) = false.
Proof.
  intros Hd Hlt. unfold time_after_eq.
  assert (Hr : 0 <= ulong (j - t))
    by (unfold ulong, unsigned_wrap; apply Z.mod_pos_bound; reflexivity).
  rewrite (long_mod_eq (j - ulong (t + d)) (ulong (j - t) - d)).
  - unfold long, BITS_PER_LONG.
    rewrite signed_wrap_small
      by (try reflexivity; change (2 ^ (64 - 1)) with (2 ^ 63); lia).
    destruct (Z.leb_spec 0 (ulong (j - t) - d)); [lia | reflexivity].
  - unfold ulong, unsigned_wrap, BITS_PER_LONG.
    rewrite Zminus_mod_idemp_r, Zminus_mod_idemp_l. f_equal. lia.
Qed.

(** The state right after an unlock at [t], kept by everything in the
    window. *)
Lemma fire_in_window (HZ t d : Z) (s : driver) (e : event) :
  0 < d <= 2 ^ 63 ->
  in_window t d e = true ->
  callbacks s = 0%nat ->
  is_unlocked (store s) = 1 ->
  lock_timer (store s) = mk_timer (ulong (t + d)) true ->
  callbacks (fire HZ s e) = 0%nat /\
  is_unlocked (store (fire HZ s e)) = 1 /\
  lock_timer (store (fire HZ s e)) = mk_timer (ulong (t + d)) true.
Proof.
  intros Hd He Hc Hu Ht.
  destruct e as [o buf count ppos|o buf count ppos|j cmd arg|j| |];
    try discriminate.
  - cbn [fire store callbacks]. rewrite my_read_state. auto.
  - cbn [fire store callbacks].
    destruct (my_write_lock_state o buf count ppos (store s)) as [-> ->]. auto.
  - cbn [in_window] in He. apply Z.ltb_lt in He.
    cbn [fire]. unfold expire_timer. rewrite Ht. cbn [pending expires].
    rewrite (time_after_eq_before t d j Hd He). cbn [andb].
    rewrite <- Ht. auto.
  - cbn [fire]. unfold run_callback. rewrite Hc. auto.
Qed.

Lemma play_in_window (HZ t d : Z) (evs : list event) :
  0 < d <= 2 ^ 63 ->
  forall s,
    forallb (in_window t d) evs = true ->
    callbacks s = 0%nat ->
    is_unlocked (store s) = 1 ->
    lock_timer (store s) = mk_timer (ulong (t + d)) true ->
    callbacks (play_from HZ s evs) = 0%nat /\
    is_unlocked (store (play_from HZ s evs)) = 1 /\
    lock_timer (store (play_from HZ s evs)) = mk_timer (ulong (t + d)) true.
Proof.
  intros Hd. induction evs as [|e evs IH]; intros s Hall Hc Hu Ht.
  - repeat split; assumption.
  - simpl in Hall. apply andb_prop in Hall. destruct Hall as [He Hall].
    destruct (fire_in_window HZ t d s e Hd He Hc Hu Ht) as [Hc' [Hu' Ht']].
    unfold play_from. cbn [fold_left]. now apply IH.
Qed.

(** X10: after an unlock served at tick [t] while no earlier callback was
    waiting for the mutex, the store stays unlocked, with the expiry at
    t + 30 s, through every sequence of reads, writes and looks of the
    timer core less than 30 s after [t] (the jiffies counter may wrap in
    between); when the timer core then looks at or after t + 30 s and the
    callback gets the mutex, the store is locked and nothing is pending. *)
Theorem unlock_window (HZ t : Z) (s : driver) (evs : list event) :
  0 < HZ ->
  1000 mod HZ = 0 ->
  callbacks s = 0%nat ->
  forallb (in_window t (30 * HZ)) evs = true ->
  let s1 :=
    play_from HZ
      (fire HZ s (EvIoctl t IOCTL_UNLOCK_VAULT (bytes_of_int VAULT_PIN))) evs in
  locked (store s1) = false /\
  unlock_deadline (store s1) = Some (ulong (t + 30 * HZ)) /\
  callbacks s1 = 0%nat /\
  (forall e, 30 * HZ <= e < 2 ^ 63 ->
     locked (store (fire HZ (fire HZ s1 (EvExpire (ulong (t + e)))) EvCallback))
     = true /\
     unlock_deadline
       (store (fire HZ (fire HZ s1 (EvExpire (ulong (t + e)))) EvCallback))
     = None /\
     callbacks (fire HZ (fire HZ s1 (EvExpire (ulong (t + e)))) EvCallback)
     = 0%nat).
Proof.
  intros Hpos Hdiv Hc Hall s1.
  assert (Hz : HZ <= 1000).
  { assert (E : 1000 = HZ * (1000 / HZ))
      by (rewrite (Z.div_mod 1000 HZ) at 1 by lia; lia).
    assert (0 < 1000 / HZ) by nia. nia. }
  assert (Hd : 0 < 30 * HZ <= 2 ^ 63) by lia.
  destruct (play_in_window HZ t (30 * HZ) evs Hd
              (fire HZ s (EvIoctl t IOCTL_UNLOCK_VAULT (bytes_of_int VAULT_PIN))))
    as [Hc1 [Hu1 Ht1]]; try assumption.
  - cbn [fire store].
    change (my_ioctl HZ t IOCTL_UNLOCK_VAULT (bytes_of_int VAULT_PIN) (store s))
      with (unlock HZ t VAULT_PIN (store s)).
    now rewrite unlock_match.
  - cbn [fire store].
    change (my_ioctl HZ t IOCTL_UNLOCK_VAULT (bytes_of_int VAULT_PIN) (store s))
      with (unlock HZ t VAULT_PIN (store s)).
    rewrite unlock_match, (LOCK_DURATION_ticks HZ Hpos Hdiv). reflexivity.
  - fold s1 in Hc1, Hu1, Ht1.
    split; [unfold locked; now rewrite Hu1|].
    split; [unfold unlock_deadline; now rewrite Ht1|].
    split; [exact Hc1|].
    intros e He. cbn [fire]. unfold expire_timer. rewrite Ht1.
    cbn [pending expires andb].
    rewrite time_after_eq_elapsed by lia.
    destruct (Z.leb_spec (30 * HZ) e); [|lia].
    unfold run_callback. cbn [callbacks store]. rewrite Hc1.
    repeat split.
Qed.

(** X14: why the window needs no callback waiting.  An unlock served while
    a called callback still waits for the mutex is undone as soon as that
    callback runs, and the store is then locked with the new expiry still
    pending. *)
Lemma stale_callback_relocks (HZ t : Z) (s : driver) :
  (0 < callbacks s)%nat ->
  locked
    (store (fire HZ s (EvIoctl t IOCTL_UNLOCK_VAULT (bytes_of_int VAULT_PIN))))
  = false /\
  locked
    (store
       (fire HZ
          (fire HZ s (EvIoctl t IOCTL_UNLOCK_VAULT (bytes_of_int VAULT_PIN)))
          EvCallback)) = true /\
  unlock_deadline
    (store
       (fire HZ
          (fire HZ s (EvIoctl t IOCTL_UNLOCK_VAULT (bytes_of_int VAULT_PIN)))
          EvCallback)) = Some (ulong (t + LOCK_DURATION HZ)).
Proof.
  intros Hc. destruct s as [v c]. cbn [callbacks] in Hc.
  cbn [fire store callbacks].
  change (my_ioctl HZ t IOCTL_UNLOCK_VAULT (bytes_of_int VAULT_PIN) v)
    with (unlock HZ t VAULT_PIN v).
  rewrite unlock_match. cbn [fst]. unfold run_callback. cbn [callbacks store].
  destruct c; [lia|]. repeat split.
Qed.

(** Histories with expiries served without delay are histories of the
    driver in two-step time. *)
Lemma play_refine (HZ : Z) (ops : list op) :
  forall v,
    play_from HZ (mk_driver v 0) (flat_map refine ops)
    = mk_driver (run_from HZ v ops) 0.
Proof.
  induction ops as [|a ops IH]; intros v; [reflexivity|].
  cbn [flat_map]. unfold play_from, run_from in *.
  rewrite fold_left_app. cbn [fold_left].
  rewrite <- IH. f_equal.
  destruct a as [o buf count ppos|o buf count ppos|j cmd arg|j|];
    try reflexivity.
  cbn [refine fold_left fire exec]. unfold expire_timer, run_timers.
  cbn [store callbacks].
  destruct (pending (lock_timer v) && time_after_eq j (expires (lock_timer v)));
    reflexivity.
Qed.

(** ** Loading and unloading the module *)

Lemma PTR_ERR_range (p : Z) :
  0 <= p < 2 ^ 64 ->
  IS_ERR p = true ->
  int (PTR_ERR p) = p - 2 ^ 64 /\ - MAX_ERRNO <= p - 2 ^ 64 <= -1.
Proof.
  unfold IS_ERR, PTR_ERR, MAX_ERRNO. intros Hp He.
  change (ulong (- (4095))) with (2 ^ 64 - 4095) in He.
  apply Z.leb_le in He.
  assert (E : long p = p - 2 ^ 64).
  { unfold long, signed_wrap, BITS_PER_LONG.
    change (2 ^ (64 - 1)) with (2 ^ 63).
    replace (p + 2 ^ 63) with (p - 2 ^ 63 + 1 * 2 ^ 64) by lia.
    rewrite Z_mod_plus_full, Z.mod_small; lia. }
  rewrite E. split; [|lia].
  apply int_small. unfold INT_MIN, INT_MAX. lia.
Qed.

(** X11: [secret_init] returns 0 exactly when all four registration calls
    succeed, and a negative error code otherwise; when a pointer-returning
    call fails the code is the errno carried by the error pointer. *)
Theorem secret_init_result (k : probe) :
  probe_typed k ->
  let ret := fst (secret_init_devices k) in
  (ret = 0 <->
   0 <= alloc_chrdev_region k /\ 0 <= cdev_add k /\
   IS_ERR (class_create k) = false /\ IS_ERR (device_create k) = false) /\
  (ret <> 0 -> ret < 0) /\
  (0 <= alloc_chrdev_region k -> 0 <= cdev_add k ->
   IS_ERR (class_create k) = true ->
   ret = class_create k - 2 ^ 64 /\ - MAX_ERRNO <= ret <= -1).
Proof.
  intros [Ha [Hc [Hcl Hdev]]] ret. subst ret. unfold secret_init_devices.
  destruct (Z.ltb_spec (alloc_chrdev_region k) 0) as [Hf1|Hs1]; cbn [fst].
  { repeat split; intros; intuition (lia || congruence). }
  destruct (Z.ltb_spec (cdev_add k) 0) as [Hf2|Hs2]; cbn [fst].
  { repeat split; intros; intuition (lia || congruence). }
  destruct (IS_ERR (class_create k)) eqn:E3; cbn [fst].
  { destruct (PTR_ERR_range _ Hcl E3) as [-> Hr].
    repeat split; intros; intuition (lia || congruence). }
  destruct (IS_ERR (device_create k)) eqn:E4; cbn [fst].
  { destruct (PTR_ERR_range _ Hdev E4) as [-> Hr].
    repeat split; intros; intuition (lia || congruence). }
  repeat split; intros; intuition (lia || congruence).
Qed.

(** X12: on every failure path [secret_init] undoes, most recent first,
    exactly the registrations it had made, so nothing stays registered; on
    success all four are held, and [secret_exit] then releases them all,
    again most recent first. *)
Theorem secret_init_exit_balanced (k : probe) :
  probe_typed k ->
  (fst (secret_init_devices k) <> 0 ->
   held_after [] (snd (secret_init_devices k)) = Some []) /\
  (fst (secret_init_devices k) = 0 ->
   held_after [] (snd (secret_init_devices k))
   = Some [Device; Class; Cdev; ChrdevRegion] /\
   held_after [] (snd (secret_init_devices k) ++ secret_exit_devices)
   = Some []).
Proof.
  intros [Ha [Hc [Hcl Hdev]]]. unfold secret_init_devices.
  destruct (Z.ltb_spec (alloc_chrdev_region k) 0) as [Hf1|Hs1]; cbn [fst snd].
  { split; [reflexivity | lia]. }
  destruct (Z.ltb_spec (cdev_add k) 0) as [Hf2|Hs2]; cbn [fst snd].
  { split; [reflexivity | lia]. }
  destruct (IS_ERR (class_create k)) eqn:E3; cbn [fst snd].
  { destruct (PTR_ERR_range _ Hcl E3) as [-> Hr].
    split; [reflexivity | lia]. }
  destruct (IS_ERR (device_create k)) eqn:E4; cbn [fst snd].
  { destruct (PTR_ERR_range _ Hdev E4) as [-> Hr].
    split; [reflexivity | lia]. }
  split; [intros H; now contradiction H | intros _; split; reflexivity].
Qed.

(** ** These properties at work on the sample states *)

Lemma read_fault_iff_witness :
  vault_wf vault_hello /\ 0 <= 0 <= LLONG_MAX /\ 0 <= 5 /\
  r_ret (snd (my_read Acquired (repeat x00 2) 5 0 vault_hello)) = - EFAULT.
Proof.
  assert (H2 : 0 <= 0 <= LLONG_MAX) by by_eval.
  assert (H3 : 0 <= 5) by by_eval.
  split; [exact vault_hello_wf|]. split; [exact H2|]. split; [exact H3|].
  apply (proj1 (read_fault_iff (repeat x00 2) 5 0 vault_hello
                  vault_hello_wf H2 H3)).
  by_eval.
Defined.

Lemma chunked_reads_reassemble_witness :
  vault_wf vault_hello /\ locked vault_hello = false /\
  0 <= 0 <= LLONG_MAX /\
  0 <= 2 <= len (repeat x00 2) /\ 0 <= 3 <= len (repeat x00 3) /\
  read_data (snd (my_read Acquired (repeat x00 2) 2 0 vault_hello))
    ++ read_data
         (snd (my_read Acquired (repeat x00 3) 3
                 (r_pos (snd (my_read Acquired (repeat x00 2) 2 0 vault_hello)))
                 vault_hello))
  = firstn (Z.to_nat (2 + 3)) (skipn (Z.to_nat 0) (secret vault_hello)).
Proof.
  assert (H2 : locked vault_hello = false) by by_eval.
  assert (H3 : 0 <= 0 <= LLONG_MAX) by by_eval.
  assert (H4 : 0 <= 2 <= len (repeat x00 2)) by by_eval.
  assert (H5 : 0 <= 3 <= len (repeat x00 3)) by by_eval.
  split; [exact vault_hello_wf|]. split; [exact H2|]. split; [exact H3|].
  split; [exact H4|]. split; [exact H5|].
  exact (proj1 (chunked_reads_reassemble (repeat x00 2) (repeat x00 3) 2 3 0
                  vault_hello vault_hello_wf H2 H3 H4 H5)).
Defined.

Lemma write_fault_iff_witness :
  0 <= 3 /\
  w_ret (snd (my_write Acquired [x41] 3 0 vault_hello)) = - EFAULT.
Proof.
  assert (H1 : 0 <= 3) by by_eval.
  split; [exact H1|].
  apply (proj1 (write_fault_iff [x41] 3 0 vault_hello H1)).
  by_eval.
Defined.

Lemma overwrite_hides_previous_witness :
  vault_wf vault_unlocked /\ locked vault_unlocked = false /\
  len hello <= MAX_SECRET /\
  MAX_SECRET <= len (repeat x00 (Z.to_nat MAX_SECRET)) /\
  read_data
    (snd (my_read Acquired (repeat x00 (Z.to_nat MAX_SECRET)) MAX_SECRET 0
            (fst (my_write Acquired hello (len hello) 0
                    (fst (my_write Acquired (repeat x41 10)
                            (len (repeat x41 10)) 0 vault_unlocked))))))
  = hello.
Proof.
  assert (H2 : locked vault_unlocked = false) by by_eval.
  assert (H3 : len hello <= MAX_SECRET) by by_eval.
  assert (H4 : MAX_SECRET <= len (repeat x00 (Z.to_nat MAX_SECRET))) by by_eval.
  split; [exact vault_unlocked_wf|]. split; [exact H2|].
  split; [exact H3|]. split; [exact H4|].
  exact (proj2 (proj2 (overwrite_hides_previous (repeat x41 10) hello
                         (repeat x00 (Z.to_nat MAX_SECRET)) 0 0 vault_unlocked
                         vault_unlocked_wf H2 H3 H4))).
Defined.

Lemma write_keeps_tail_witness :
  vault_wf vault_hello /\ locked vault_hello = false /\
  len [x41] <= MAX_SECRET /\
  skipn (length [x41])
    (secret_buf (fst (my_write Acquired [x41] (len [x41]) 0 vault_hello)))
  = skipn (length [x41]) (secret_buf vault_hello).
Proof.
  assert (H2 : locked vault_hello = false) by by_eval.
  assert (H3 : len [x41] <= MAX_SECRET) by by_eval.
  split; [exact vault_hello_wf|]. split; [exact H2|]. split; [exact H3|].
  exact (proj1 (write_keeps_tail [x41] 0 vault_hello vault_hello_wf H2 H3)).
Defined.

Lemma ioctl_unlocks_iff_witness :
  snd (my_ioctl 250 1000 IOCTL_UNLOCK_VAULT [x39; x05] boot) = - EFAULT.
Proof.
  apply (proj1 (proj2 (proj2 (proj2
           (ioctl_unlocks_iff 250 1000 IOCTL_UNLOCK_VAULT [x39; x05] boot)))));
    by_eval.
Defined.

Lemma only_unlock_ioctl_unlocks_witness :
  locked boot = true /\
  locked (exec 250 boot
            (OpIoctl 1000 IOCTL_UNLOCK_VAULT (bytes_of_int VAULT_PIN))) = false /\
  exists j arg,
    OpIoctl 1000 IOCTL_UNLOCK_VAULT (bytes_of_int VAULT_PIN)
    = OpIoctl j IOCTL_UNLOCK_VAULT arg /\ 4 <= len arg /\
    int_of_bytes (firstn 4 arg) = VAULT_PIN.
Proof.
  assert (H1 : locked boot = true) by by_eval.
  assert (H2 : locked (exec 250 boot
                         (OpIoctl 1000 IOCTL_UNLOCK_VAULT
                            (bytes_of_int VAULT_PIN))) = false) by by_eval.
  split; [exact H1|]. split; [exact H2|].
  exact (only_unlock_ioctl_unlocks 250 boot _ H1 H2).
Defined.

Lemma only_callback_locks_witness :
  locked (store driver_expired) = false /\
  locked (store (fire 250 driver_expired EvCallback)) = true /\
  (EvCallback = EvCallback \/ EvCallback = EvExit) /\
  (0 < callbacks driver_expired)%nat.
Proof.
  assert (H1 : locked (store driver_expired) = false) by by_eval.
  assert (H2 : locked (store (fire 250 driver_expired EvCallback)) = true)
    by by_eval.
  split; [exact H1|]. split; [exact H2|].
  exact (proj1 (only_callback_locks 250 driver_expired EvCallback) H1 H2).
Defined.

Lemma locked_store_frozen_witness :
  forallb is_data_op
    [OpWrite Acquired hello 5 0; OpRead Acquired (repeat x00 5) 5 0] = true /\
  locked boot = true /\
  run_from 250 boot
    [OpWrite Acquired hello 5 0; OpRead Acquired (repeat x00 5) 5 0] = boot.
Proof.
  assert (H2 : locked boot = true) by by_eval.
  split; [reflexivity|]. split; [exact H2|].
  exact (locked_store_frozen 250
           [OpWrite Acquired hello 5 0; OpRead Acquired (repeat x00 5) 5 0]
           boot eq_refl H2).
Defined.

(** Unlocked 100 ticks before the jiffies counter wraps: still unlocked
    after the timer core has looked 7499 ticks later, on the far side of
    the wrap. *)
Lemma unlock_window_witness :
  0 < 250 /\ 1000 mod 250 = 0 /\ callbacks boot_driver = 0%nat /\
  forallb (in_window (2 ^ 64 - 100) (30 * 250))
    [EvExpire (ulong (2 ^ 64 - 100 + 7499)); EvCallback;
     EvRead Acquired (repeat x00 5) 5 0] = true /\
  locked
    (store
       (play_from 250
          (fire 250 boot_driver
             (EvIoctl (2 ^ 64 - 100) IOCTL_UNLOCK_VAULT (bytes_of_int VAULT_PIN)))
          [EvExpire (ulong (2 ^ 64 - 100 + 7499)); EvCallback;
           EvRead Acquired (repeat x00 5) 5 0])) = false.
Proof.
  assert (H1 : 0 < 250) by reflexivity.
  assert (H2 : 1000 mod 250 = 0) by reflexivity.
  assert (H3 : callbacks boot_driver = 0%nat) by reflexivity.
  assert (H4 : forallb (in_window (2 ^ 64 - 100) (30 * 250))
                 [EvExpire (ulong (2 ^ 64 - 100 + 7499)); EvCallback;
                  EvRead Acquired (repeat x00 5) 5 0] = true) by by_eval.
  split; [exact H1|]. split; [exact H2|]. split; [exact H3|].
  split; [exact H4|].
  exact (proj1 (unlock_window 250 (2 ^ 64 - 100) boot_driver
                  [EvExpire (ulong (2 ^ 64 - 100 + 7499)); EvCallback;
                   EvRead Acquired (repeat x00 5) 5 0] H1 H2 H3 H4)).
Defined.

Lemma stale_callback_relocks_witness :
  (0 < callbacks driver_expired)%nat /\
  locked
    (store
       (fire 250
          (fire 250 driver_expired
             (EvIoctl 8600 IOCTL_UNLOCK_VAULT (bytes_of_int VAULT_PIN)))
          EvCallback)) = true.
Proof.
  assert (H1 : (0 < callbacks driver_expired)%nat) by (vm_compute; constructor).
  split; [exact H1|].
  exact (proj1 (proj2 (stale_callback_relocks 250 8600 driver_expired H1))).
Defined.

Lemma secret_init_result_witness :
  probe_typed probe_class_fails /\
  (fst (secret_init_devices probe_class_fails) <> 0 ->
   fst (secret_init_devices probe_class_fails) < 0).
Proof.
  assert (H1 : probe_typed probe_class_fails) by by_eval.
  split; [exact H1|].
  exact (proj1 (proj2 (secret_init_result probe_class_fails H1))).
Defined.

Lemma secret_init_exit_balanced_witness :
  probe_typed probe_class_fails /\
  fst (secret_init_devices probe_class_fails) <> 0 /\
  held_after [] (snd (secret_init_devices probe_class_fails)) = Some [].
Proof.
  assert (H1 : probe_typed probe_class_fails) by by_eval.
  assert (H2 : fst (secret_init_devices probe_class_fails) <> 0) by by_eval.
  split; [exact H1|]. split; [exact H2|].
  exact (proj1 (secret_init_exit_balanced probe_class_fails H1) H2).
Defined.

Lemma run_wf_witness :
  forallb op_typed
    [OpIoctl 1000 IOCTL_UNLOCK_VAULT (bytes_of_int VAULT_PIN);
     OpWrite Acquired [x41] 3 0] = true /\
  vault_wf
    (run 250 [OpIoctl 1000 IOCTL_UNLOCK_VAULT (bytes_of_int VAULT_PIN);
              OpWrite Acquired [x41] 3 0]).
Proof.
  split; [reflexivity|].
  exact (run_wf 250
           [OpIoctl 1000 IOCTL_UNLOCK_VAULT (bytes_of_int VAULT_PIN);
            OpWrite Acquired [x41] 3 0] eq_refl).
Defined.
